(** * OpenWeedLocator relay control: the per-nozzle job queues and their consumers

    Shallow embedding of [relay_control.py]: the [RelayControl] relay board
    interface and the [Controller] that queues detection jobs per nozzle and
    runs one consumer thread per nozzle.

    Modelling choices.
    - Python numbers that carry times (timestamps, delays, durations) are exact
      rationals [Q]; NaN and the infinities are left out, and so is the
      [OverflowError] of [time.sleep] on a length beyond the range of the
      platform's clock: what is stated of the processing of a job is stated
      for jobs whose waits [time.sleep] can make.
    - A Python [dict] that is iterated ([solenoidDict]) is an insertion-ordered
      association list kept in a store of dict objects, so that two names may
      refer to one object; the dicts that are only indexed
      ([nozzleQueueDict], [nozzleconditionDict]) are [gmap]s.
    - Every call on the outside world (the relays, the buzzer, [time.sleep], the
      logger) and every queue operation is recorded, in order and with the
      thread that made it, in the [trace] of the state.
    - Threads are interleaved by a schedule: a list of inputs, each either a call
      made by the main thread or one consumer thread running up to its next
      use of its [Condition].  What [time.time()] returns is part of the input.
    - The initial state is the controller when [__init__] has started its
      last thread; the end of [__init__] ([time.sleep(1)] and the beep) is an
      input of the schedule, so it may run before, between or after the
      consumers' steps.
    - A call of [receive] that finds the lock of the condition held waits;
      it is the outcome [Blocks], and in a schedule it changes nothing.
    - Console output ([print]), the attributes [RelayControl.on] and
      [RelayControl.testing] (never read after [__init__]) and the choice
      between [OutputDevice] and [TestRelay] are not modelled; the default
      values of the parameters of [receive] are the caller's business. *)

From Stdlib Require Import ZArith QArith Qminmax List Bool Lia.
From stdpp Require Import base option list gmap.

Close Scope Q_scope.
Open Scope Z_scope.

(** ** Values, jobs, log lines and events *)

Inductive exn := KeyError | ValueError.

(** [inputQMessage = [nozzle, timeStamp, delay, duration, location]] *)
Record SprayJob := mkJob {
  job_nozzle : Z;
  job_timeStamp : Q;
  job_delay : Q;
  job_duration : Q;
  job_location : Z;
}.

Inductive pyval := PInt (z : Z) | PNum (q : Q).

(** The three lines the controller writes; a line is its format string
    together with the arguments of [format], in order. *)
Inductive line :=
| ReceiveLine (a_nozzle a_time a_location a_delay a_duration : pyval)
    (* "nozzle: {} | time: {} | location {} | delay: {} | duration: {}" *)
| InfoOnDur (onDur : Q) (nozzle : Z)
    (* '[INFO] onDur {} for nozzle {} received.' *)
| ErrorNegativeOnDur (onDur : Q) (nozzle : Z).
    (* '[ERROR] negative onDur {} for nozzle {} received. Turning on for 0 seconds.' *)

Definition line_args (l : line) : list pyval :=
  match l with
  | ReceiveLine a b c d e => [a; b; c; d; e]
  | InfoOnDur o n | ErrorNegativeOnDur o n => [PNum o; PInt n]
  end.

Definition is_error_line (l : line) : bool :=
  match l with ErrorNegativeOnDur _ _ => true | _ => false end.

Inductive tid := MainThread | Consumer (nozzle : Z).

Inductive event :=
| Sleep (d : Q)                       (* time.sleep(d) returned *)
| RelayOn (solenoidNumber : Z)        (* relay.on() of that solenoid's relay *)
| RelayOff (solenoidNumber : Z)       (* relay.off() *)
| Beep (on_time off_time : Q) (n : Z) (* buzzer.beep(...) *)
| LogLine (l : line)                  (* logger.log_line(l) *)
| Append (j : SprayJob)               (* inputQ.append(j) *)
| Popleft (j : SprayJob).             (* nozzleQueue.popleft() returned j *)

(** ** The store *)

(** [OutputDevice] / [TestRelay]: the board pin and whether it is driven. *)
Record Relay := mkRelay { relayNumber : Z; is_active : bool }.

(** A dict from solenoid numbers, in insertion order. *)
Definition Dict := list (Z * Relay).

Fixpoint dict_get (k : Z) (d : Dict) : option Relay :=
  match d with
  | [] => None
  | (k', v) :: d' => if Z.eqb k k' then Some v else dict_get k d'
  end.

(** [d[k] = v] for a key already in [d]: the entry keeps its place. *)
Fixpoint dict_set (k : Z) (v : Relay) (d : Dict) : Dict :=
  match d with
  | [] => [(k, v)]
  | (k', v') :: d' =>
      if Z.eqb k k' then (k', v) :: d' else (k', v') :: dict_set k v d'
  end.

(** [d.pop(k, None)] *)
Definition dict_pop (k : Z) (d : Dict) : Dict :=
  List.filter (fun kv => negb (Z.eqb k (fst kv))) d.

Definition dict_keys (d : Dict) : list Z := map fst d.

(** [collections.deque(maxlen=5)]: [append] adds on the right and, when the
    deque has grown past [maxlen], drops from the left. *)
Definition maxlen : nat := 5.

Definition deque_append (q : list SprayJob) (x : SprayJob) : list SprayJob :=
  let q' := q ++ [x] in
  if (maxlen <? length q')%nat then drop 1 q' else q'.

(** [threading.Condition]: its lock, and the state of the one thread that
    may be inside [wait()]. *)
Inductive waiter := NoWaiter | Parked | Notified.

Record Condition := mkCondition { locked : bool; waiting : waiter }.

Definition acquire (c : Condition) : Condition :=
  {| locked := true; waiting := waiting c |}.
Definition release (c : Condition) : Condition :=
  {| locked := false; waiting := waiting c |}.
(** [notify()] wakes a parked waiter and is lost when there is none. *)
Definition notify (c : Condition) : Condition :=
  {| locked := locked c;
     waiting := match waiting c with Parked => Notified | w => w end |}.
(** entering [wait()]: the lock is released and the caller parks *)
Definition wait_park (c : Condition) : Condition :=
  {| locked := false; waiting := Parked |}.
(** leaving [wait()]: the lock is held again *)
Definition wait_resume (c : Condition) : Condition :=
  {| locked := true; waiting := NoWaiter |}.

(** Where a consumer thread stands in [Controller.consumer]. *)
Inductive pc :=
| AtStart                       (* created, nothing run yet *)
| AtQueueTest                   (* holds the lock, at [while nozzleQueue:] *)
| Processing (sprayJob : SprayJob) (* lock released, job in hand *)
| InWait                        (* inside [inputCondition.wait()] *)
| Crashed (e : exn)             (* ended by an uncaught exception *)
| Returned.                     (* left [while self.running:] *)

Record Thread := mkThread { at_pc : pc; nozzleOn : bool }.

Definition ref := nat.

Record State := mkState {
  heap : list Dict;                         (* the dict objects *)
  nozzleDict : ref;                         (* Controller.nozzleDict *)
  solenoidDict : ref;                       (* RelayControl.solenoidDict *)
  nozzleQueueDict : gmap Z (list SprayJob);
  nozzleconditionDict : gmap Z Condition;
  running : bool;                           (* Controller.running *)
  threads : gmap Z Thread;
  trace : list (tid * event);
}.

Definition set_heap (h : list Dict) (s : State) : State :=
  mkState h (nozzleDict s) (solenoidDict s) (nozzleQueueDict s)
          (nozzleconditionDict s) (running s) (threads s) (trace s).
Definition set_solenoidDict (r : ref) (s : State) : State :=
  mkState (heap s) (nozzleDict s) r (nozzleQueueDict s)
          (nozzleconditionDict s) (running s) (threads s) (trace s).
Definition set_queue (n : Z) (q : list SprayJob) (s : State) : State :=
  mkState (heap s) (nozzleDict s) (solenoidDict s) (<[n:=q]> (nozzleQueueDict s))
          (nozzleconditionDict s) (running s) (threads s) (trace s).
Definition set_condition (n : Z) (c : Condition) (s : State) : State :=
  mkState (heap s) (nozzleDict s) (solenoidDict s) (nozzleQueueDict s)
          (<[n:=c]> (nozzleconditionDict s)) (running s) (threads s) (trace s).
Definition set_running (b : bool) (s : State) : State :=
  mkState (heap s) (nozzleDict s) (solenoidDict s) (nozzleQueueDict s)
          (nozzleconditionDict s) b (threads s) (trace s).
Definition set_thread (n : Z) (t : Thread) (s : State) : State :=
  mkState (heap s) (nozzleDict s) (solenoidDict s) (nozzleQueueDict s)
          (nozzleconditionDict s) (running s) (<[n:=t]> (threads s)) (trace s).
Definition add_events (l : list (tid * event)) (s : State) : State :=
  mkState (heap s) (nozzleDict s) (solenoidDict s) (nozzleQueueDict s)
          (nozzleconditionDict s) (running s) (threads s) (trace s ++ l).

(** The dict object a reference points to. *)
Definition deref (r : ref) (s : State) : Dict := default [] (heap s !! r).

(** ** The monad of the methods: state, exceptions, and waiting for a lock *)

Inductive outcome (A : Type) :=
| Ok (a : A)
| Raise (e : exn)
| Blocks.                 (* the call waits for a lock and has not returned *)
Arguments Ok {A} a.
Arguments Raise {A} e.
Arguments Blocks {A}.

Definition M (A : Type) : Type := tid -> State -> outcome A * State.

Definition ret {A} (a : A) : M A := fun _ s => (Ok a, s).
Definition bind {A B} (m : M A) (k : A -> M B) : M B :=
  fun t s =>
    match m t s with
    | (Ok a, s') => k a t s'
    | (Raise e, s') => (Raise e, s')
    | (Blocks, s') => (Blocks, s')
    end.
Definition raise {A} (e : exn) : M A := fun _ s => (Raise e, s).
Definition emit (e : event) : M unit :=
  fun t s => (Ok tt, add_events [(t, e)] s).
Definition modify (f : State -> State) : M unit := fun _ s => (Ok tt, f s).
Definition get {A} (f : State -> A) : M A := fun _ s => (Ok (f s), s).

(** [try: m  except ValueError: h] *)
Definition except_ValueError {A} (m h : M A) : M A :=
  fun t s =>
    match m t s with
    | (Raise ValueError, s') => h t s'
    | r => r
    end.

Notation "'let*' x ':=' m 'in' k" := (bind m (fun x => k))
  (at level 10, x name, m at level 100, k at level 200).
Notation "m ';;' k" := (bind m (fun _ => k))
  (at level 100, k at level 200, right associativity).

Fixpoint for_each {A} (l : list A) (body : A -> M unit) : M unit :=
  match l with
  | [] => ret tt
  | x :: l' => body x ;; for_each l' body
  end.

(** ** The outside world *)

(** [time.sleep(d)]: a negative length raises [ValueError].  The lengths of
    the model are those [time.sleep] can take: a length too large for the
    clock of the platform (an [OverflowError], which [consumer] does not
    catch) and NaN have no counterpart here, so what is stated of the
    processing of a job is stated for jobs whose waits [time.sleep] can
    make. *)
Definition sleep (d : Q) : M unit :=
  if Qle_bool 0 d then emit (Sleep d) else raise ValueError.

(** Modelled from the spec: [Logger.log_line] (module [logger] is not part of
    the sources) is "a single append-only line logger": the line is appended
    to the log. *)
Definition log_line (l : line) : M unit := emit (LogLine l).

(** The lines of the log, oldest first. *)
Definition log_of (tr : list (tid * event)) : list line :=
  omap (fun te => match snd te with LogLine l => Some l | _ => None end) tr.

(** ** class RelayControl *)

(** [relay = self.solenoidDict[solenoidNumber]; relay.on()] *)
Definition relay_on (solenoidNumber : Z) : M unit :=
  let* d := get (fun s => deref (solenoidDict s) s) in
  match dict_get solenoidNumber d with
  | None => raise KeyError
  | Some relay =>
      modify (fun s =>
        set_heap (<[solenoidDict s :=
                     dict_set solenoidNumber (mkRelay (relayNumber relay) true) d]>
                  (heap s)) s) ;;
      emit (RelayOn solenoidNumber)
  end.

(** [relay = self.solenoidDict[solenoidNumber]; relay.off()] *)
Definition relay_off (solenoidNumber : Z) : M unit :=
  let* d := get (fun s => deref (solenoidDict s) s) in
  match dict_get solenoidNumber d with
  | None => raise KeyError
  | Some relay =>
      modify (fun s =>
        set_heap (<[solenoidDict s :=
                     dict_set solenoidNumber (mkRelay (relayNumber relay) false) d]>
                  (heap s)) s) ;;
      emit (RelayOff solenoidNumber)
  end.

(** [self.buzzer.beep(on_time=duration, off_time=(duration / 2), n=repeats)] *)
Definition beep (duration : Q) (repeats : Z) : M unit :=
  emit (Beep duration (duration / 2)%Q repeats).

Definition all_on : M unit :=
  let* d := get (fun s => deref (solenoidDict s) s) in
  for_each (dict_keys d) relay_on.

Definition all_off : M unit :=
  let* d := get (fun s => deref (solenoidDict s) s) in
  for_each (dict_keys d) relay_off.

(** [self.solenoidDict.pop(solenoidNumber, None)]: the dict object itself
    is changed. *)
Definition remove (solenoidNumber : Z) : M unit :=
  modify (fun s =>
    set_heap (<[solenoidDict s :=
                 dict_pop solenoidNumber (deref (solenoidDict s) s)]> (heap s)) s).

(** [self.solenoidDict = {}]: the attribute is bound to a new, empty dict;
    the old dict object stays as it is. *)
Definition clear : M unit :=
  modify (fun s =>
    set_solenoidDict (length (heap s)) (set_heap (heap s ++ [[]]) s)).

Definition stop : M unit := clear ;; all_off.

(** ** class Controller *)

(** [receive(self, nozzle, timeStamp, location=0, delay=0, duration=1)] *)
Definition receive (nozzle : Z) (timeStamp : Q) (location : Z)
    (delay duration : Q) : M unit :=
  let inputQMessage := mkJob nozzle timeStamp delay duration location in
  let* oq := get (fun s => nozzleQueueDict s !! nozzle) in
  match oq with
  | None => raise KeyError
  | Some inputQ =>
    let* oc := get (fun s => nozzleconditionDict s !! nozzle) in
    match oc with
    | None => raise KeyError
    | Some inputCondition =>
        (* with inputCondition: *)
        if locked inputCondition then (fun _ s => (Blocks, s)) else
        modify (set_queue nozzle (deque_append inputQ inputQMessage)) ;;
        emit (Append inputQMessage) ;;
        modify (set_condition nozzle (release (notify (acquire inputCondition)))) ;;
        log_line (ReceiveLine (PInt nozzle) (PNum timeStamp) (PNum delay)
                              (PNum duration) (PInt location))
    end
  end.

(** The three quantities the consumer computes for a job, given what
    [time.time()] returned. *)
Definition timeDiff (now : Q) (sprayJob : SprayJob) : Q :=
  (now - job_timeStamp sprayJob)%Q.

Definition onDur (now : Q) (sprayJob : SprayJob) : Q :=
  if Qle_bool (job_duration sprayJob - timeDiff now sprayJob) 0 then 0%Q
  else (job_duration sprayJob - timeDiff now sprayJob)%Q.

Definition delay_of (now : Q) (sprayJob : SprayJob) : Q :=
  if Qeq_bool (onDur now sprayJob) 0 then 0%Q
  else (job_delay sprayJob - timeDiff now sprayJob)%Q.

(** The body of the inner loop of [consumer], from [time.time()] to the
    log line; the result is the new value of [nozzleOn]. *)
Definition process (nozzle : Z) (sprayJob : SprayJob) (now : Q)
    (nozzleOn : bool) : M bool :=
  let onDur := onDur now sprayJob in
  let* nozzleOn :=
    (if negb nozzleOn then
       let delay := delay_of now sprayJob in
       except_ValueError (sleep delay) (sleep 0) ;;
       relay_on nozzle ;;
       ret true
     else ret nozzleOn) in
  except_ValueError
    (sleep onDur ;; log_line (InfoOnDur onDur nozzle))
    (sleep 0 ;; log_line (ErrorNegativeOnDur onDur nozzle)) ;;
  ret nozzleOn.

(** One consumer thread runs from where it stands to its next use of the
    condition (or to its end). *)
Definition consumer_step (nozzle : Z) (now : Q) (s : State) : State :=
  let me := Consumer nozzle in
  match threads s !! nozzle with
  | None => s
  | Some th =>
    match at_pc th with
    | AtStart =>
        (* self.running = True; inputCondition.acquire(); nozzleOn = False *)
        let s := set_running true s in
        match nozzleconditionDict s !! nozzle, nozzleQueueDict s !! nozzle with
        | Some inputCondition, Some _ =>
            set_thread nozzle (mkThread AtQueueTest false)
              (set_condition nozzle (acquire inputCondition) s)
        | _, _ => set_thread nozzle (mkThread (Crashed KeyError) false) s
        end
    | AtQueueTest =>
        let inputCondition :=
          default (mkCondition true NoWaiter) (nozzleconditionDict s !! nozzle) in
        match default [] (nozzleQueueDict s !! nozzle) with
        | sprayJob :: rest =>
            (* sprayJob = nozzleQueue.popleft(); inputCondition.release() *)
            set_thread nozzle (mkThread (Processing sprayJob) (nozzleOn th))
              (set_condition nozzle (release inputCondition)
                (add_events [(me, Popleft sprayJob)]
                  (set_queue nozzle rest s)))
        | [] =>
            (* relay_off(nozzle); nozzleOn = False; inputCondition.wait() *)
            match relay_off nozzle me s with
            | (Ok _, s') =>
                set_thread nozzle (mkThread InWait false)
                  (set_condition nozzle (wait_park inputCondition) s')
            | (Raise e, s') =>
                set_thread nozzle (mkThread (Crashed e) (nozzleOn th)) s'
            | (Blocks, s') => s'
            end
        end
    | Processing sprayJob =>
        let inputCondition :=
          default (mkCondition false NoWaiter) (nozzleconditionDict s !! nozzle) in
        match process nozzle sprayJob now (nozzleOn th) me s with
        | (Ok on', s') =>
            (* inputCondition.acquire() *)
            set_thread nozzle (mkThread AtQueueTest on')
              (set_condition nozzle (acquire inputCondition) s')
        | (Raise e, s') =>
            set_thread nozzle (mkThread (Crashed e) (nozzleOn th)) s'
        | (Blocks, s') => s'
        end
    | InWait =>
        match nozzleconditionDict s !! nozzle with
        | Some (mkCondition false Notified) =>
            (* wait() returns with the lock held; while self.running: *)
            let s' := set_condition nozzle (wait_resume (mkCondition false Notified)) s in
            if running s
            then set_thread nozzle (mkThread AtQueueTest (nozzleOn th)) s'
            else set_thread nozzle (mkThread Returned (nozzleOn th)) s'
        | _ => s
        end
    | Crashed _ | Returned => s
    end
  end.

(** [Controller.__init__(nozzleDict)] for a dict with the given items
    (solenoid number, board pin), up to the start of the last thread.
    [RelayControl.__init__] replaces each pin by its relay object in the very
    dict it was given, and one queue, one condition and one thread are made
    for each of [range(0, len(nozzleDict))].  The threads run from then on;
    what [__init__] still does, [finish_init], is an input of the schedule
    like any other call of the main thread. *)
Definition init_relays (items : list (Z * Z)) : Dict :=
  map (fun kv => (fst kv, mkRelay (snd kv) false)) items.

Fixpoint setup_nozzles (n : nat) (s : State) : State :=
  match n with
  | O => s
  | S n' =>
      let s := setup_nozzles n' s in
      let nozzle := Z.of_nat n' in
      set_thread nozzle (mkThread AtStart false)
        (set_condition nozzle (mkCondition false NoWaiter)
          (set_queue nozzle [] s))
  end.

Definition init (items : list (Z * Z)) : State :=
  let s0 := mkState [init_relays items] 0%nat 0%nat ∅ ∅ false ∅ [] in
  setup_nozzles (length items) s0.

(** The end of [__init__]: [time.sleep(1); self.solenoid.beep(duration=0.5)] *)
Definition finish_init : M unit := sleep 1 ;; beep (1 # 2) 2.

(** ** Schedules *)

Inductive input :=
| CallReceive (nozzle : Z) (timeStamp : Q) (location : Z) (delay duration : Q)
| CallAllOn
| CallAllOff
| CallRemove (solenoidNumber : Z)
| CallClear
| CallStop
| CallBeep (duration : Q) (repeats : Z)
| Run (nozzle : Z) (now : Q)
| FinishInit.

Definition step (s : State) (i : input) : State :=
  match i with
  | CallReceive nozzle timeStamp location delay duration =>
      snd (receive nozzle timeStamp location delay duration MainThread s)
  | CallAllOn => snd (all_on MainThread s)
  | CallAllOff => snd (all_off MainThread s)
  | CallRemove n => snd (remove n MainThread s)
  | CallClear => snd (clear MainThread s)
  | CallStop => snd (stop MainThread s)
  | CallBeep d r => snd (beep d r MainThread s)
  | Run nozzle now => consumer_step nozzle now s
  | FinishInit => snd (finish_init MainThread s)
  end.

Definition exec (s : State) (sched : list input) : State :=
  fold_left step sched s.

(** ** Notions used in the statements *)

(** The wait that [try: time.sleep(d) except ValueError: time.sleep(0)]
    ends up making. *)
Definition slept (d : Q) : Q := if Qle_bool 0 d then d else 0%Q.

(** The state after [relay.on()] on the relay of [nozzle]. *)
Definition energize (nozzle : Z) (relay : Relay) (s : State) : State :=
  set_heap (<[solenoidDict s :=
               dict_set nozzle (mkRelay (relayNumber relay) true)
                 (deref (solenoidDict s) s)]> (heap s)) s.

(** The state after [relay.off()] on the relay of [nozzle]. *)
Definition deenergize (nozzle : Z) (relay : Relay) (s : State) : State :=
  set_heap (<[solenoidDict s :=
               dict_set nozzle (mkRelay (relayNumber relay) false)
                 (deref (solenoidDict s) s)]> (heap s)) s.

(** What consumer [n] did, in order. *)
Definition consumer_events (n : Z) (tr : list (tid * event)) : list event :=
  omap (fun te =>
          match fst te with
          | Consumer m => if Z.eqb m n then Some (snd te) else None
          | MainThread => None
          end) tr.

(** The jobs [receive] appended to the queue of nozzle [n], in order. *)
Definition appended (n : Z) (tr : list (tid * event)) : list SprayJob :=
  omap (fun te =>
          match te with
          | (MainThread, Append j) =>
              if Z.eqb (job_nozzle j) n then Some j else None
          | _ => None
          end) tr.

(** The jobs a consumer took from its queue, in order. *)
Definition popped (l : list event) : list SprayJob :=
  omap (fun e => match e with Popleft j => Some j | _ => None end) l.

Definition is_on (e : event) : bool :=
  match e with RelayOn _ => true | _ => false end.
Definition is_off (e : event) : bool :=
  match e with RelayOff _ => true | _ => false end.
Definition is_pop (e : event) : bool :=
  match e with Popleft _ => true | _ => false end.

Fixpoint count (f : event -> bool) (l : list event) : nat :=
  match l with
  | [] => O
  | e :: l' => ((if f e then 1 else 0) + count f l')%nat
  end.

(** The calls on the relay among some events. *)
Definition relay_calls (l : list event) : list event :=
  List.filter (fun e => is_on e || is_off e) l.

(** The shape of what one consumer does: it switches off on finding its
    queue empty, takes a job, switches on once, takes further jobs while
    there are some, and switches off again.  [Bad] is any other order. *)
Inductive phase := Fresh | Idle | Armed | Active | Bad.

Definition phase_step (p : phase) (e : event) : phase :=
  match e with
  | Popleft _ =>
      match p with Fresh | Idle => Armed | Active => Active | _ => Bad end
  | RelayOn _ => match p with Armed => Active | _ => Bad end
  | RelayOff _ => match p with Fresh | Active => Idle | _ => Bad end
  | _ => p
  end.

Definition phase_from (p : phase) (l : list event) : phase :=
  fold_left phase_step l p.

(** What the state holds for one nozzle. *)
Record View := mkView {
  v_thread : option Thread;
  v_queue : option (list SprayJob);
  v_cond : option Condition;
  v_events : list event;
  v_appended : list SprayJob;
}.

Definition view (n : Z) (s : State) : View :=
  mkView (threads s !! n) (nozzleQueueDict s !! n) (nozzleconditionDict s !! n)
         (consumer_events n (trace s)) (appended n (trace s)).

(** What one input can change for nozzle [n]. *)
Inductive vstep (n : Z) : input -> View -> View -> Prop :=
| vs_none i v : vstep n i v v
| vs_receive ts loc dl du th q c evs app :
    locked c = false ->
    vstep n (CallReceive n ts loc dl du)
      (mkView th (Some q) (Some c) evs app)
      (mkView th (Some (deque_append q (mkJob n ts dl du loc)))
              (Some (release (notify (acquire c)))) evs
              (app ++ [mkJob n ts dl du loc]))
| vs_start now b q c evs app :
    vstep n (Run n now)
      (mkView (Some (mkThread AtStart b)) (Some q) (Some c) evs app)
      (mkView (Some (mkThread AtQueueTest false)) (Some q)
              (Some (acquire c)) evs app)
| vs_start_crash now b oq oc evs app :
    oq = None \/ oc = None ->
    vstep n (Run n now)
      (mkView (Some (mkThread AtStart b)) oq oc evs app)
      (mkView (Some (mkThread (Crashed KeyError) false)) oq oc evs app)
| vs_pop now b oq oc j rest evs app :
    default [] oq = j :: rest ->
    vstep n (Run n now)
      (mkView (Some (mkThread AtQueueTest b)) oq oc evs app)
      (mkView (Some (mkThread (Processing j) b)) (Some rest)
              (Some (release (default (mkCondition true NoWaiter) oc)))
              (evs ++ [Popleft j]) app)
| vs_drained now b oq oc evs app :
    default [] oq = [] ->
    vstep n (Run n now)
      (mkView (Some (mkThread AtQueueTest b)) oq oc evs app)
      (mkView (Some (mkThread InWait false)) oq
              (Some (wait_park (default (mkCondition true NoWaiter) oc)))
              (evs ++ [RelayOff n]) app)
| vs_drained_crash now b oq oc evs app :
    default [] oq = [] ->
    vstep n (Run n now)
      (mkView (Some (mkThread AtQueueTest b)) oq oc evs app)
      (mkView (Some (mkThread (Crashed KeyError) b)) oq oc evs app)
| vs_process_on now j oq oc evs app :
    vstep n (Run n now)
      (mkView (Some (mkThread (Processing j) true)) oq oc evs app)
      (mkView (Some (mkThread AtQueueTest true)) oq
              (Some (acquire (default (mkCondition false NoWaiter) oc)))
              (evs ++ [Sleep (onDur now j); LogLine (InfoOnDur (onDur now j) n)])
              app)
| vs_process_off now j oq oc evs app :
    vstep n (Run n now)
      (mkView (Some (mkThread (Processing j) false)) oq oc evs app)
      (mkView (Some (mkThread AtQueueTest true)) oq
              (Some (acquire (default (mkCondition false NoWaiter) oc)))
              (evs ++ [Sleep (slept (delay_of now j)); RelayOn n;
                       Sleep (onDur now j);
                       LogLine (InfoOnDur (onDur now j) n)])
              app)
| vs_process_crash now j oq oc evs app :
    vstep n (Run n now)
      (mkView (Some (mkThread (Processing j) false)) oq oc evs app)
      (mkView (Some (mkThread (Crashed KeyError) false)) oq oc
              (evs ++ [Sleep (slept (delay_of now j))]) app)
| vs_wake now b oq evs app pc' :
    pc' = AtQueueTest \/ pc' = Returned ->
    vstep n (Run n now)
      (mkView (Some (mkThread InWait b)) oq
              (Some (mkCondition false Notified)) evs app)
      (mkView (Some (mkThread pc' b)) oq
              (Some (wait_resume (mkCondition false Notified))) evs app).

(** A call that leaves the queues, the conditions and the threads alone
    and only adds events of the outside world to the trace. *)
Definition is_queue_event (e : event) : bool :=
  match e with Append _ | Popleft _ => true | _ => false end.

Definition framed (t : tid) (s s' : State) : Prop :=
  nozzleQueueDict s' = nozzleQueueDict s
  /\ nozzleconditionDict s' = nozzleconditionDict s
  /\ threads s' = threads s
  /\ running s' = running s
  /\ exists evs, trace s' = trace s ++ map (pair t) evs
              /\ forallb (fun e => negb (is_queue_event e)) evs = true.

Definition queue_of (v : View) : list SprayJob := default [] (v_queue v).

(** How far the consumer has come, against where its thread stands. *)
Definition phase_ok (v : View) : Prop :=
  let p := phase_from Fresh (v_events v) in
  match v_thread v with
  | None => p = Fresh
  | Some th =>
      match at_pc th with
      | AtStart => p = Fresh
      | AtQueueTest =>
          (p = Fresh /\ nozzleOn th = false)
          \/ (p = Active /\ nozzleOn th = true)
          \/ (p = Idle /\ nozzleOn th = false /\ queue_of v <> [])
      | Processing _ =>
          (p = Armed /\ nozzleOn th = false)
          \/ (p = Active /\ nozzleOn th = true)
      | InWait =>
          p = Idle /\ nozzleOn th = false
          /\ (waiting <$> v_cond v = Some Notified -> queue_of v <> [])
      | Crashed _ | Returned => p <> Bad
      end
  end.

(** The relay calls of consumer [n] are for solenoid [n]. *)
Definition own_relay (n : Z) (e : event) : bool :=
  match e with
  | RelayOn k | RelayOff k => Z.eqb k n
  | _ => true
  end.

(** What holds of every nozzle in every state a schedule leads to. *)
Record chan_inv (n : Z) (v : View) : Prop := mk_chan_inv {
  inv_keys : is_Some (v_queue v) <-> is_Some (v_cond v);
  inv_thread : is_Some (v_thread v) -> is_Some (v_queue v);
  inv_length : (length (queue_of v) <= maxlen)%nat;
  inv_fifo : sublist (popped (v_events v) ++ queue_of v) (v_appended v);
  inv_phase : phase_ok v;
  inv_own : forallb (own_relay n) (v_events v) = true;
  inv_hand : forall j, at_pc <$> v_thread v = Some (Processing j) ->
                       last (popped (v_events v)) = Some j;
}.

(** The inputs that are a [receive] for nozzle [n]. *)
Definition is_receive_for (n : Z) (i : input) : bool :=
  match i with
  | CallReceive m _ _ _ _ => Z.eqb m n
  | _ => false
  end.

(** Relay-on calls made since the last relay-off, and relay-off calls made
    since the last relay-on, as the phase tells them. *)
Definition ons_since_off (p : phase) : nat :=
  match p with Active => 1 | _ => 0 end.
Definition offs_since_on (p : phase) : nat :=
  match p with Idle | Armed => 1 | _ => 0 end.

(** The call of [receive] that enqueues a given job. *)
Definition call_of_job (j : SprayJob) : input :=
  CallReceive (job_nozzle j) (job_timeStamp j) (job_location j)
              (job_delay j) (job_duration j).

(** The entry of a solenoid in the relay dict. *)
Definition relay_of (n : Z) (s : State) : option Relay :=
  dict_get n (deref (solenoidDict s) s).

(** A relay object after [on()] or [off()]. *)
Definition driven (b : bool) (r : Relay) : Relay := mkRelay (relayNumber r) b.

(** The lock and the waiter of a condition, against where the consumer
    stands. *)
Definition sync_ok (v : View) : Prop :=
  match v_thread v with
  | None => True
  | Some th =>
      match at_pc th with
      | AtStart | Processing _ => v_cond v = Some (mkCondition false NoWaiter)
      | AtQueueTest => v_cond v = Some (mkCondition true NoWaiter)
      | InWait =>
          (v_cond v = Some (mkCondition false Parked) /\ queue_of v = [])
          \/ (v_cond v = Some (mkCondition false Notified) /\ queue_of v <> [])
      | Crashed _ | Returned => True
      end
  end.

(** A wait that was made is of a length that is not negative. *)
Definition wait_ok (e : event) : bool :=
  match e with
  | Sleep d => Qle_bool 0 d
  | _ => true
  end.

Definition is_log (e : event) : bool :=
  match e with LogLine _ => true | _ => false end.

(** The consumer is between two jobs. *)
Definition between_jobs (p : pc) : bool :=
  match p with AtStart | AtQueueTest | InWait => true | _ => false end.

Definition is_queue_test (p : pc) : bool :=
  match p with AtQueueTest => true | _ => false end.

Definition is_crashed (p : pc) : bool :=
  match p with Crashed _ => true | _ => false end.

(** No consumer has left its loop, and [running] is true as soon as one
    of them has run. *)
Definition never_returns (s : State) : Prop :=
  forall n th, threads s !! n = Some th ->
    at_pc th <> Returned /\ (at_pc th = AtStart \/ running s = true).

(** The lines a consumer has logged against the jobs it has taken. *)
Definition log_ok (v : View) : Prop :=
  let lines := count is_log (v_events v) in
  let pops := count is_pop (v_events v) in
  forallb wait_ok (v_events v) = true
  /\ match v_thread v with
     | None => lines = pops
     | Some th =>
         match at_pc th with
         | Processing _ => pops = S lines
         | Crashed _ => (lines <= pops <= S lines)%nat
         | _ => lines = pops
         end
     end.

(** The value of [nozzleOn] that counts: the one of a consumer that is at
    its queue test or processing a job. *)
Definition nozzle_on_flag (ot : option Thread) : bool :=
  match ot with
  | Some th =>
      match at_pc th with
      | AtQueueTest | Processing _ => nozzleOn th
      | _ => false
      end
  | None => false
  end.

(** The inputs that are not a call on the relay board. *)
Definition worker_input (i : input) : bool :=
  match i with
  | CallReceive _ _ _ _ _ | Run _ _ | CallBeep _ _ | FinishInit => true
  | _ => false
  end.












(** * Properties *)

(** ** Timing arithmetic *)

Lemma Qle_bool_false (x y : Q) : Qle_bool x y = false -> (y < x)%Q.
Proof.
  intros H. apply Qnot_le_lt. intros Hle.
  apply Qle_bool_iff in Hle. congruence.
Qed.

Lemma onDur_nonneg now sprayJob : Qle_bool 0 (onDur now sprayJob) = true.
Proof.
  unfold onDur.
  destruct (Qle_bool (job_duration sprayJob - timeDiff now sprayJob) 0) eqn:E.
  - reflexivity.
  - apply Qle_bool_iff, Qlt_le_weak, Qle_bool_false, E.
Qed.

Lemma onDur_is_max now sprayJob :
  onDur now sprayJob
  = Qmax 0 (job_duration sprayJob - (now - job_timeStamp sprayJob)).
Proof.
  unfold onDur, timeDiff, Qmax, GenericMinMax.gmax.
  set (x := (job_duration sprayJob - (now - job_timeStamp sprayJob))%Q).
  destruct (Qle_bool x 0) eqn:E.
  - apply Qle_bool_iff in E.
    destruct (Qcompare_spec 0 x) as [C|C|C]; try reflexivity.
    exfalso. exact (Qlt_not_le _ _ C E).
  - apply Qle_bool_false in E.
    destruct (Qcompare_spec 0 x) as [C|C|C]; try reflexivity; exfalso.
    + rewrite <- C in E. exact (Qlt_irrefl _ E).
    + exact (Qlt_irrefl _ (Qlt_trans _ _ _ C E)).
Qed.

Lemma onDur_negative_raw now sprayJob :
  (job_duration sprayJob - (now - job_timeStamp sprayJob) < 0)%Q ->
  onDur now sprayJob = 0%Q.
Proof.
  intros H. unfold onDur, timeDiff.
  apply Qlt_le_weak, Qle_bool_iff in H. rewrite H. reflexivity.
Qed.

Lemma slept_is_max d : (slept d == Qmax 0 d)%Q.
Proof.
  unfold slept, Qmax, GenericMinMax.gmax.
  destruct (Qle_bool 0 d) eqn:E.
  - apply Qle_bool_iff in E.
    destruct (Qcompare_spec 0 d) as [C|C|C]; try reflexivity.
    + symmetry. exact C.
    + exfalso. exact (Qlt_not_le _ _ C E).
  - apply Qle_bool_false in E.
    destruct (Qcompare_spec 0 d) as [C|C|C]; try reflexivity.
    exfalso. exact (Qlt_irrefl _ (Qlt_trans _ _ _ C E)).
Qed.

Lemma try_sleep t s d :
  except_ValueError (sleep d) (sleep 0) t s
  = (Ok tt, add_events [(t, Sleep (slept d))] s).
Proof.
  unfold except_ValueError, sleep, slept.
  destruct (Qle_bool 0 d); reflexivity.
Qed.

(** ** What one pass of the inner loop does *)

Lemma relay_on_mapped nozzle relay t s :
  dict_get nozzle (deref (solenoidDict s) s) = Some relay ->
  relay_on nozzle t s
  = (Ok tt, add_events [(t, RelayOn nozzle)] (energize nozzle relay s)).
Proof.
  intros H. unfold relay_on, bind, get. rewrite H. reflexivity.
Qed.

Lemma relay_on_unmapped nozzle t s :
  dict_get nozzle (deref (solenoidDict s) s) = None ->
  relay_on nozzle t s = (Raise KeyError, s).
Proof.
  intros H. unfold relay_on, bind, get. rewrite H. reflexivity.
Qed.

Lemma tail_of_process nozzle sprayJob now (b : bool) t s :
  (except_ValueError
     (sleep (onDur now sprayJob) ;; log_line (InfoOnDur (onDur now sprayJob) nozzle))
     (sleep 0 ;; log_line (ErrorNegativeOnDur (onDur now sprayJob) nozzle)) ;;
   ret b) t s
  = (Ok b, add_events [(t, Sleep (onDur now sprayJob));
                       (t, LogLine (InfoOnDur (onDur now sprayJob) nozzle))] s).
Proof.
  unfold except_ValueError, bind, sleep, log_line, emit, ret.
  rewrite onDur_nonneg. simpl. unfold add_events. simpl.
  rewrite <- app_assoc. reflexivity.
Qed.

Lemma process_on nozzle sprayJob now t s :
  process nozzle sprayJob now true t s
  = (Ok true, add_events [(t, Sleep (onDur now sprayJob));
                          (t, LogLine (InfoOnDur (onDur now sprayJob) nozzle))] s).
Proof.
  unfold process. simpl. unfold bind at 1. unfold ret at 1.
  apply tail_of_process.
Qed.

Lemma process_off_mapped nozzle sprayJob now relay t s :
  dict_get nozzle (deref (solenoidDict s) s) = Some relay ->
  process nozzle sprayJob now false t s
  = (Ok true,
     add_events [(t, Sleep (slept (delay_of now sprayJob)));
                 (t, RelayOn nozzle);
                 (t, Sleep (onDur now sprayJob));
                 (t, LogLine (InfoOnDur (onDur now sprayJob) nozzle))]
       (energize nozzle relay s)).
Proof.
  intros H. unfold process. simpl.
  unfold bind at 1. unfold bind at 1. rewrite try_sleep.
  unfold bind at 1.
  rewrite (relay_on_mapped nozzle relay) by exact H.
  unfold ret at 1. rewrite tail_of_process.
  unfold add_events, energize, set_heap. simpl.
  rewrite <- !app_assoc. reflexivity.
Qed.

Lemma process_off_unmapped nozzle sprayJob now t s :
  dict_get nozzle (deref (solenoidDict s) s) = None ->
  process nozzle sprayJob now false t s
  = (Raise KeyError,
     add_events [(t, Sleep (slept (delay_of now sprayJob)))] s).
Proof.
  intros H. unfold process. simpl.
  unfold bind at 1. unfold bind at 1. rewrite try_sleep.
  unfold bind at 1.
  rewrite relay_on_unmapped by exact H. reflexivity.
Qed.

(** ** The store under the relay calls *)

Lemma dict_get_set_same k v d :
  is_Some (dict_get k d) -> dict_get k (dict_set k v d) = Some v.
Proof.
  induction d as [|[k' v'] d IH]; simpl; intros [x Hx]; [discriminate|].
  destruct (Z.eqb k k') eqn:E; simpl; rewrite E; [reflexivity|].
  apply IH. eauto.
Qed.

Lemma deref_some r s x :
  dict_get x (deref r s) <> None -> heap s !! r = Some (deref r s).
Proof.
  unfold deref. destruct (heap s !! r); simpl; [reflexivity | intros H; congruence].
Qed.

Lemma deref_set_heap_same r d s :
  is_Some (heap s !! r) -> deref r (set_heap (<[r:=d]> (heap s)) s) = d.
Proof.
  intros H. unfold deref, set_heap. simpl.
  apply lookup_lt_is_Some in H.
  rewrite list_lookup_insert_eq by exact H. reflexivity.
Qed.

Lemma deref_add_events r l s : deref r (add_events l s) = deref r s.
Proof. reflexivity. Qed.

Lemma log_of_app a b : log_of (a ++ b) = log_of a ++ log_of b.
Proof. apply omap_app. Qed.

(** ** Claims on the timing of one job *)

(** C3. The on-duration the consumer uses for a job is
    [max(0, duration - (now - timeStamp))], never negative; a job detected
    5 seconds ago with duration 1 gets exactly 0; and a nozzle that is not
    on is switched on all the same (the relay-on call is made and the relay
    is driven), after which the consumer waits that on-duration and logs it. *)
Theorem effective_on_duration_is_clamped
    (nozzle : Z) (sprayJob : SprayJob) (now : Q) (on_ : bool)
    (relay : Relay) (t : tid) (s : State) :
  dict_get nozzle (deref (solenoidDict s) s) = Some relay ->
  let r := process nozzle sprayJob now on_ t s in
  onDur now sprayJob
    = Qmax 0 (job_duration sprayJob - (now - job_timeStamp sprayJob))
  /\ (0 <= onDur now sprayJob)%Q
  /\ (forall delay location,
        onDur now (mkJob nozzle (now - 5) delay 1 location) = 0%Q)
  /\ r.1 = Ok true
  /\ trace r.2
     = trace s
       ++ (if on_ then []
           else [(t, Sleep (slept (delay_of now sprayJob))); (t, RelayOn nozzle)])
       ++ [(t, Sleep (onDur now sprayJob));
           (t, LogLine (InfoOnDur (onDur now sprayJob) nozzle))]
  /\ is_active <$> dict_get nozzle (deref (solenoidDict r.2) r.2)
     = Some (if on_ then is_active relay else true).
Proof.
  intros Hrelay r.
  split; [apply onDur_is_max|].
  split; [apply Qle_bool_iff, onDur_nonneg|].
  split.
  { intros delay location. apply onDur_negative_raw. simpl.
    assert (E : (1 - (now - (now - 5)) == -4)%Q) by ring.
    rewrite E. reflexivity. }
  subst r. destruct on_.
  - rewrite process_on. cbn [fst snd]. rewrite deref_add_events.
    cbn [solenoidDict add_events trace]. rewrite Hrelay. auto.
  - rewrite (process_off_mapped _ _ _ relay) by exact Hrelay. cbn [fst snd].
    split; [reflexivity|]. split; [reflexivity|].
    rewrite deref_add_events.
    change (solenoidDict (add_events _ (energize nozzle relay s)))
      with (solenoidDict s).
    unfold energize. rewrite deref_set_heap_same.
    + rewrite dict_get_set_same by (rewrite Hrelay; eauto). reflexivity.
    + rewrite (deref_some _ _ nozzle) by congruence. eauto.
Qed.

Lemma effective_on_duration_is_clamped_witness :
  let s := init [(0, 13)] in
  let r := process 0 (mkJob 0 0 0 1 0) 5 false (Consumer 0) s in
  r.1 = Ok true
  /\ trace r.2
     = trace s ++ [(Consumer 0, Sleep 0); (Consumer 0, RelayOn 0);
                   (Consumer 0, Sleep 0);
                   (Consumer 0, LogLine (InfoOnDur 0 0))].
Proof.
  intros s r.
  destruct (effective_on_duration_is_clamped 0 (mkJob 0 0 0 1 0) 5 false
              (mkRelay 13 false) (Consumer 0) s eq_refl)
    as (_ & _ & _ & Hok & Htr & _).
  split; [exact Hok | exact Htr].
Defined.

(** C4. For a nozzle that is not on, the wait made before the relay is
    switched on is 0 when the on-duration is 0 and
    [max(0, delay - (now - timeStamp))] otherwise; it is never negative, it is
    the first thing the consumer does for the job, and nothing that follows
    it for this job is an error line. *)
Theorem pre_activation_delay_is_clamped_silently
    (nozzle : Z) (sprayJob : SprayJob) (now : Q) (t : tid) (s : State) :
  let r := process nozzle sprayJob now false t s in
  exists (d : Q) (rest : list (tid * event)),
    trace r.2 = trace s ++ (t, Sleep d) :: rest
    /\ (d == if Qeq_bool (onDur now sprayJob) 0 then 0
             else Qmax 0 (job_delay sprayJob - (now - job_timeStamp sprayJob)))%Q
    /\ (0 <= d)%Q
    /\ (rest = [] \/
        rest = [(t, RelayOn nozzle); (t, Sleep (onDur now sprayJob));
                (t, LogLine (InfoOnDur (onDur now sprayJob) nozzle))])
    /\ existsb is_error_line (log_of rest) = false.
Proof.
  intros r. subst r.
  assert (Hd : (slept (delay_of now sprayJob)
                == if Qeq_bool (onDur now sprayJob) 0 then 0
                   else Qmax 0 (job_delay sprayJob
                                - (now - job_timeStamp sprayJob)))%Q).
  { unfold delay_of. destruct (Qeq_bool (onDur now sprayJob) 0).
    - reflexivity.
    - apply slept_is_max. }
  assert (Hpos : (0 <= slept (delay_of now sprayJob))%Q).
  { unfold slept. destruct (Qle_bool 0 (delay_of now sprayJob)) eqn:E.
    - apply Qle_bool_iff, E.
    - apply Qle_refl. }
  exists (slept (delay_of now sprayJob)).
  destruct (dict_get nozzle (deref (solenoidDict s) s)) as [relay|] eqn:Hrelay.
  - rewrite (process_off_mapped _ _ _ relay) by exact Hrelay.
    eexists. split; [reflexivity|]. repeat split; auto.
  - rewrite process_off_unmapped by exact Hrelay.
    exists []. repeat split; auto.
Qed.

(** C1 (what the code does).  When [duration - (now - timeStamp)] is
    negative the consumer waits 0 and the one line it logs for the job is the
    [INFO] line with on-duration 0: [onDur] was set to 0 before
    [time.sleep(onDur)], so the [except ValueError] branch with the [ERROR]
    line is never taken. *)
Theorem negative_on_duration_is_logged_as_info
    (nozzle : Z) (sprayJob : SprayJob) (now : Q) (on_ : bool)
    (relay : Relay) (t : tid) (s : State) :
  dict_get nozzle (deref (solenoidDict s) s) = Some relay ->
  (job_duration sprayJob - (now - job_timeStamp sprayJob) < 0)%Q ->
  let r := process nozzle sprayJob now on_ t s in
  r.1 = Ok true
  /\ log_of (trace r.2) = log_of (trace s) ++ [InfoOnDur 0 nozzle]
  /\ existsb is_error_line (log_of (drop (length (trace s)) (trace r.2))) = false
  /\ exists pre, trace r.2
       = trace s ++ pre ++ [(t, Sleep 0); (t, LogLine (InfoOnDur 0 nozzle))].
Proof.
  intros Hrelay Hneg r. subst r.
  pose proof (onDur_negative_raw now sprayJob Hneg) as E.
  destruct on_.
  - rewrite process_on, E. cbn [fst snd add_events trace].
    rewrite log_of_app, drop_app_length. repeat split; auto.
    exists []. reflexivity.
  - rewrite (process_off_mapped _ _ _ relay), E by exact Hrelay.
    cbn [fst snd add_events trace energize set_heap].
    rewrite log_of_app, drop_app_length. repeat split; auto.
    exists [(t, Sleep (slept (delay_of now sprayJob))); (t, RelayOn nozzle)].
    reflexivity.
Qed.

Lemma negative_on_duration_is_logged_as_info_witness :
  let s := init [(0, 13)] in
  let r := process 0 (mkJob 0 0 0 1 0) 5 false (Consumer 0) s in
  (1 - (5 - 0) < 0)%Q
  /\ log_of (trace r.2) = log_of (trace s) ++ [InfoOnDur 0 0].
Proof.
  intros s r.
  assert (Hneg : (1 - (5 - 0) < 0)%Q) by reflexivity.
  split; [exact Hneg|].
  destruct (negative_on_duration_is_logged_as_info 0 (mkJob 0 0 0 1 0) 5 false
              (mkRelay 13 false) (Consumer 0) s eq_refl Hneg)
    as (_ & Hlog & _).
  exact Hlog.
Defined.

(** ** Claims on the relay board interface *)

Lemma all_off_empty t s :
  deref (solenoidDict s) s = [] -> all_off t s = (Ok tt, s).
Proof. intros H. unfold all_off, bind, get. rewrite H. reflexivity. Qed.

Lemma clear_leaves_empty t s :
  deref (solenoidDict (clear t s).2) (clear t s).2 = [].
Proof.
  unfold clear, modify, deref. cbn.
  rewrite list_lookup_middle by reflexivity. reflexivity.
Qed.

Lemma stop_is_clear t s : stop t s = clear t s.
Proof.
  unfold stop, bind. change (clear t s) with (Ok tt, (clear t s).2).
  cbv beta iota. rewrite all_off_empty by apply clear_leaves_empty.
  reflexivity.
Qed.

(** C10. [stop()] makes no call on any relay: [clear()] has bound
    [solenoidDict] to a new empty dict before [all_off()] goes through it, so
    [stop()] returns what [clear()] returns and leaves the state [clear()]
    leaves; the trace is unchanged and so is every dict object there was,
    with every relay in it. *)
Theorem stop_only_clears (t : tid) (s : State) :
  stop t s = clear t s
  /\ (stop t s).1 = Ok tt
  /\ trace (stop t s).2 = trace s
  /\ heap (stop t s).2 = heap s ++ [[]]
  /\ deref (solenoidDict (stop t s).2) (stop t s).2 = [].
Proof.
  rewrite stop_is_clear.
  pose proof (clear_leaves_empty t s). repeat split; auto.
Qed.

(** ** Calls that leave the queues alone *)

Lemma framed_refl t s : framed t s s.
Proof.
  repeat split; auto. exists []. simpl. rewrite app_nil_r. auto.
Qed.

Lemma framed_trans t s1 s2 s3 :
  framed t s1 s2 -> framed t s2 s3 -> framed t s1 s3.
Proof.
  intros (Q1 & C1 & T1 & R1 & e1 & E1 & F1) (Q2 & C2 & T2 & R2 & e2 & E2 & F2).
  repeat split; try congruence.
  exists (e1 ++ e2). rewrite E2, E1, map_app, <- app_assoc, forallb_app, F1, F2.
  auto.
Qed.

Lemma framed_add_event t e s :
  is_queue_event e = false -> framed t s (add_events [(t, e)] s).
Proof.
  intros H. repeat split; auto. exists [e]. simpl. rewrite H. auto.
Qed.

Lemma framed_set_heap t h s : framed t s (set_heap h s).
Proof.
  repeat split; auto. exists []. simpl. rewrite app_nil_r. auto.
Qed.

Lemma framed_set_solenoidDict t r s : framed t s (set_solenoidDict r s).
Proof.
  repeat split; auto. exists []. simpl. rewrite app_nil_r. auto.
Qed.

Lemma relay_off_mapped nozzle relay t s :
  dict_get nozzle (deref (solenoidDict s) s) = Some relay ->
  relay_off nozzle t s
  = (Ok tt, add_events [(t, RelayOff nozzle)] (deenergize nozzle relay s)).
Proof.
  intros H. unfold relay_off, bind, get. rewrite H. reflexivity.
Qed.

Lemma relay_off_unmapped nozzle t s :
  dict_get nozzle (deref (solenoidDict s) s) = None ->
  relay_off nozzle t s = (Raise KeyError, s).
Proof.
  intros H. unfold relay_off, bind, get. rewrite H. reflexivity.
Qed.

Lemma relay_on_framed n t s : framed t s (relay_on n t s).2.
Proof.
  destruct (dict_get n (deref (solenoidDict s) s)) as [relay|] eqn:H.
  - rewrite (relay_on_mapped _ relay) by exact H. cbn [snd].
    eapply framed_trans; [apply framed_set_heap|].
    apply framed_add_event. reflexivity.
  - rewrite relay_on_unmapped by exact H. apply framed_refl.
Qed.

Lemma relay_off_framed n t s : framed t s (relay_off n t s).2.
Proof.
  destruct (dict_get n (deref (solenoidDict s) s)) as [relay|] eqn:H.
  - rewrite (relay_off_mapped _ relay) by exact H. cbn [snd].
    eapply framed_trans; [apply framed_set_heap|].
    apply framed_add_event. reflexivity.
  - rewrite relay_off_unmapped by exact H. apply framed_refl.
Qed.

Lemma for_each_framed {A} (body : A -> M unit) (l : list A) :
  (forall x t s, framed t s (body x t s).2) ->
  forall t s, framed t s (for_each l body t s).2.
Proof.
  intros Hbody. induction l as [|x l IH]; intros t s; simpl.
  - apply framed_refl.
  - unfold bind. pose proof (Hbody x t s) as Hx.
    destruct (body x t s) as [[u|e|] s']; cbn [snd] in *; auto.
    eapply framed_trans; [exact Hx | apply IH].
Qed.

Lemma all_on_framed t s : framed t s (all_on t s).2.
Proof.
  unfold all_on, bind, get. apply for_each_framed. apply relay_on_framed.
Qed.

Lemma all_off_framed t s : framed t s (all_off t s).2.
Proof.
  unfold all_off, bind, get. apply for_each_framed. apply relay_off_framed.
Qed.

Lemma remove_framed n t s : framed t s (remove n t s).2.
Proof. apply framed_set_heap. Qed.

Lemma clear_framed t s : framed t s (clear t s).2.
Proof.
  unfold clear, modify. cbn [snd].
  eapply framed_trans; [apply framed_set_heap | apply framed_set_solenoidDict].
Qed.

Lemma stop_framed t s : framed t s (stop t s).2.
Proof.
  rewrite stop_is_clear. apply clear_framed.
Qed.

Lemma beep_framed d r t s : framed t s (beep d r t s).2.
Proof. apply framed_add_event. reflexivity. Qed.

Lemma finish_init_framed t s : framed t s (finish_init t s).2.
Proof.
  unfold finish_init, bind, sleep. cbn. unfold beep.
  eapply framed_trans; apply framed_add_event; reflexivity.
Qed.

(** ** Every step, seen from one nozzle *)

Lemma consumer_events_app n a b :
  consumer_events n (a ++ b) = consumer_events n a ++ consumer_events n b.
Proof. apply omap_app. Qed.

Lemma appended_app n a b : appended n (a ++ b) = appended n a ++ appended n b.
Proof. apply omap_app. Qed.

Lemma consumer_events_main n evs :
  consumer_events n (map (pair MainThread) evs) = [].
Proof. induction evs; simpl; auto. Qed.

Lemma consumer_events_own n evs :
  consumer_events n (map (pair (Consumer n)) evs) = evs.
Proof.
  induction evs as [|e evs IH]; [reflexivity|].
  cbn. rewrite Z.eqb_refl. cbn. f_equal. exact IH.
Qed.

Lemma consumer_events_other n m evs :
  m <> n -> consumer_events n (map (pair (Consumer m)) evs) = [].
Proof.
  intros H. apply Z.eqb_neq in H.
  induction evs as [|e evs IH]; [reflexivity|].
  cbn. rewrite H. cbn. exact IH.
Qed.


Lemma appended_main_world n evs :
  forallb (fun e => negb (is_queue_event e)) evs = true ->
  appended n (map (pair MainThread) evs) = [].
Proof.
  induction evs as [|e evs IH]; [reflexivity|].
  cbn [forallb]. intros [He H]%andb_true_iff.
  destruct e; try discriminate; cbn; auto.
Qed.

Lemma view_framed n s s' : framed MainThread s s' -> view n s' = view n s.
Proof.
  intros (Q & C & T & _ & evs & E & F). unfold view.
  rewrite Q, C, T, E, consumer_events_app, appended_app,
    consumer_events_main, appended_main_world, !app_nil_r by exact F.
  reflexivity.
Qed.

(** The view after a change for nozzle [m]. *)
Lemma view_set_thread n m th s :
  view n (set_thread m th s)
  = mkView (if Z.eqb m n then Some th else v_thread (view n s))
           (v_queue (view n s)) (v_cond (view n s))
           (v_events (view n s)) (v_appended (view n s)).
Proof.
  unfold view. cbn.
  destruct (Z.eqb m n) eqn:E.
  - apply Z.eqb_eq in E. subst m. rewrite lookup_insert_eq. reflexivity.
  - apply Z.eqb_neq in E. rewrite lookup_insert_ne by exact E. reflexivity.
Qed.

Lemma view_set_queue n m q s :
  view n (set_queue m q s)
  = mkView (v_thread (view n s))
           (if Z.eqb m n then Some q else v_queue (view n s))
           (v_cond (view n s)) (v_events (view n s)) (v_appended (view n s)).
Proof.
  unfold view. cbn.
  destruct (Z.eqb m n) eqn:E.
  - apply Z.eqb_eq in E. subst m. rewrite lookup_insert_eq. reflexivity.
  - apply Z.eqb_neq in E. rewrite lookup_insert_ne by exact E. reflexivity.
Qed.

Lemma view_set_condition n m c s :
  view n (set_condition m c s)
  = mkView (v_thread (view n s)) (v_queue (view n s))
           (if Z.eqb m n then Some c else v_cond (view n s))
           (v_events (view n s)) (v_appended (view n s)).
Proof.
  unfold view. cbn.
  destruct (Z.eqb m n) eqn:E.
  - apply Z.eqb_eq in E. subst m. rewrite lookup_insert_eq. reflexivity.
  - apply Z.eqb_neq in E. rewrite lookup_insert_ne by exact E. reflexivity.
Qed.

(** [receive], case by case. *)
Lemma receive_eq nozzle ts loc dl du t s :
  receive nozzle ts loc dl du t s
  = match nozzleQueueDict s !! nozzle, nozzleconditionDict s !! nozzle with
    | None, _ | _, None => (Raise KeyError, s)
    | Some q, Some c =>
        if locked c then (Blocks, s)
        else (Ok tt,
              add_events [(t, LogLine (ReceiveLine (PInt nozzle) (PNum ts)
                                         (PNum dl) (PNum du) (PInt loc)))]
                (set_condition nozzle (release (notify (acquire c)))
                  (add_events [(t, Append (mkJob nozzle ts dl du loc))]
                    (set_queue nozzle
                       (deque_append q (mkJob nozzle ts dl du loc)) s))))
    end.
Proof.
  unfold receive, bind, get.
  destruct (nozzleQueueDict s !! nozzle) as [q|]; [|reflexivity].
  destruct (nozzleconditionDict s !! nozzle) as [c|]; [|reflexivity].
  destruct (locked c); reflexivity.
Qed.

Lemma receive_vstep n m ts loc dl du s :
  vstep n (CallReceive m ts loc dl du) (view n s)
        (view n (receive m ts loc dl du MainThread s).2).
Proof.
  rewrite receive_eq.
  destruct (nozzleQueueDict s !! m) as [q|] eqn:Hq; [|apply vs_none].
  destruct (nozzleconditionDict s !! m) as [c|] eqn:Hc; [|apply vs_none].
  destruct (locked c) eqn:Hl; [apply vs_none|]. cbn [snd].
  unfold view.
  cbn [add_events set_condition set_queue threads nozzleQueueDict
       nozzleconditionDict trace].
  rewrite !consumer_events_app, !appended_app. cbn.
  rewrite !app_nil_r.
  destruct (Z.eqb_spec m n) as [->|Hne].
  - rewrite !lookup_insert_eq, Hq, Hc. apply vs_receive. exact Hl.
  - rewrite !lookup_insert_ne, app_nil_r by exact Hne. apply vs_none.
Qed.

Ltac view_cases m n Hth :=
  unfold view, energize, deenergize;
  cbn [add_events set_condition set_queue set_thread set_heap set_running
       threads nozzleQueueDict nozzleconditionDict trace];
  rewrite ?consumer_events_app, ?appended_app; cbn;
  rewrite ?app_nil_r;
  destruct (Z.eqb_spec m n) as [->|Hne];
  [ rewrite ?lookup_insert_eq, ?Hth
  | rewrite ?lookup_insert_ne, ?app_nil_r by exact Hne; apply vs_none ].

Lemma consumer_step_vstep n m now s :
  vstep n (Run m now) (view n s) (view n (consumer_step m now s)).
Proof.
  unfold consumer_step.
  destruct (threads s !! m) as [[p b]|] eqn:Hth; [|apply vs_none].
  cbn [at_pc nozzleOn]. destruct p.
  - cbn [set_running nozzleconditionDict nozzleQueueDict].
    destruct (nozzleconditionDict s !! m) as [c|] eqn:Hc;
      [destruct (nozzleQueueDict s !! m) as [q|] eqn:Hq|].
    + view_cases m n Hth. rewrite Hc, Hq. apply vs_start.
    + view_cases m n Hth. rewrite Hc, Hq. apply vs_start_crash. auto.
    + view_cases m n Hth. rewrite Hc. apply vs_start_crash. auto.
  - destruct (default [] (nozzleQueueDict s !! m)) as [|j rest] eqn:Hq.
    + destruct (dict_get m (deref (solenoidDict s) s)) as [relay|] eqn:Hr.
      * rewrite (relay_off_mapped _ relay) by exact Hr.
        view_cases m n Hth. apply vs_drained. exact Hq.
      * rewrite relay_off_unmapped by exact Hr.
        view_cases m n Hth. apply vs_drained_crash. exact Hq.
    + view_cases m n Hth. apply vs_pop. exact Hq.
  - destruct b.
    + rewrite process_on. view_cases m n Hth. apply vs_process_on.
    + destruct (dict_get m (deref (solenoidDict s) s)) as [relay|] eqn:Hr.
      * rewrite (process_off_mapped _ _ _ relay) by exact Hr.
        view_cases m n Hth. apply vs_process_off.
      * rewrite process_off_unmapped by exact Hr.
        view_cases m n Hth. apply vs_process_crash.
  - destruct (nozzleconditionDict s !! m) as [[[] []]|] eqn:Hc;
      try apply vs_none.
    destruct (running s); view_cases m n Hth; rewrite Hc;
      apply vs_wake; auto.
  - apply vs_none.
  - apply vs_none.
Qed.

Lemma step_vstep n s i : vstep n i (view n s) (view n (step s i)).
Proof.
  destruct i; cbn [step].
  - apply receive_vstep.
  - rewrite (view_framed n s (all_on MainThread s).2) by apply all_on_framed. apply vs_none.
  - rewrite (view_framed n s (all_off MainThread s).2) by apply all_off_framed. apply vs_none.
  - rewrite (view_framed n s (remove solenoidNumber MainThread s).2) by apply remove_framed. apply vs_none.
  - rewrite (view_framed n s (clear MainThread s).2) by apply clear_framed. apply vs_none.
  - rewrite (view_framed n s (stop MainThread s).2) by apply stop_framed. apply vs_none.
  - rewrite (view_framed n s (beep duration repeats MainThread s).2) by apply beep_framed. apply vs_none.
  - apply consumer_step_vstep.
  - rewrite (view_framed n s (finish_init MainThread s).2)
      by apply finish_init_framed.
    apply vs_none.
Qed.

(** Induction on the states a schedule leads to, with a condition on its
    inputs. *)
Lemma exec_ind (P : input -> Prop) (I : State -> Prop) s0 :
  I s0 ->
  (forall s i, P i -> I s -> I (step s i)) ->
  forall sched, Forall P sched -> I (exec s0 sched).
Proof.
  intros H0 Hstep sched. revert s0 H0.
  induction sched as [|i sched IH]; intros s0 H0 HP; [exact H0|].
  inversion HP; subst. cbn. apply IH; auto.
Qed.

(** The nozzles [__init__] sets up. *)
Lemma view_setup_nozzles n k s :
  view n (setup_nozzles k s)
  = if decide (0 <= n < Z.of_nat k)
    then mkView (Some (mkThread AtStart false)) (Some [])
                (Some (mkCondition false NoWaiter))
                (v_events (view n s)) (v_appended (view n s))
    else view n s.
Proof.
  induction k as [|k IH].
  - cbn [setup_nozzles]. destruct (decide _); [lia | reflexivity].
  - cbn [setup_nozzles].
    rewrite view_set_thread, view_set_condition, view_set_queue, IH.
    destruct (Z.eqb_spec (Z.of_nat k) n) as [<-|Hne].
    + destruct (decide (0 <= Z.of_nat k < Z.of_nat (S k))); [|lia].
      destruct (decide _); reflexivity.
    + destruct (decide (0 <= n < Z.of_nat k)),
               (decide (0 <= n < Z.of_nat (S k))); try lia; reflexivity.
Qed.

Lemma view_init n items :
  view n (init items)
  = if decide (0 <= n < Z.of_nat (length items))
    then mkView (Some (mkThread AtStart false)) (Some [])
                (Some (mkCondition false NoWaiter)) [] []
    else mkView None None None [] [].
Proof.
  unfold init. rewrite view_setup_nozzles. unfold view. cbn.
  rewrite !lookup_empty. reflexivity.
Qed.

(** ** The invariant *)

Lemma phase_from_app p a b :
  phase_from p (a ++ b) = phase_from (phase_from p a) b.
Proof. apply fold_left_app. Qed.

Lemma popped_app a b : popped (a ++ b) = popped a ++ popped b.
Proof. apply omap_app. Qed.

Lemma deque_append_nonempty q j : deque_append q j <> [].
Proof.
  unfold deque_append.
  destruct (maxlen <? length (q ++ [j]))%nat eqn:E.
  - apply Nat.ltb_lt in E. unfold maxlen in E. intros H.
    apply (f_equal length) in H. rewrite length_drop in H. simpl in H. lia.
  - destruct q; discriminate.
Qed.

Lemma deque_append_length q j :
  (length q <= maxlen)%nat -> (length (deque_append q j) <= maxlen)%nat.
Proof.
  intros H. unfold deque_append.
  destruct (maxlen <? length (q ++ [j]))%nat eqn:E.
  - rewrite length_drop, length_app. simpl. lia.
  - apply Nat.ltb_ge in E. exact E.
Qed.

Lemma deque_append_sublist q j : sublist (deque_append q j) (q ++ [j]).
Proof.
  unfold deque_append.
  destruct (maxlen <? length (q ++ [j]))%nat; [apply sublist_drop | reflexivity].
Qed.

Ltac inv_open :=
  constructor; unfold phase_ok, queue_of;
  cbn [v_thread v_queue v_cond v_events v_appended default at_pc nozzleOn id
       fmap option_fmap option_map].

Ltac inv_own Ho :=
  rewrite ?forallb_app, ?Ho; cbn; rewrite ?Z.eqb_refl; reflexivity.

Ltac inv_hand Hh :=
  first [ exact Hh
        | intros ? ?; discriminate
        | intros ? [= <-]; rewrite popped_app; apply last_snoc ].

Lemma chan_inv_step n i v v' :
  vstep n i v v' -> chan_inv n v -> chan_inv n v'.
Proof.
  intros Hstep [Hk Ht Hl Hf Hp Ho Hh].
  destruct Hstep; unfold phase_ok, queue_of in *;
    cbn [v_thread v_queue v_cond v_events v_appended at_pc nozzleOn
         default id fmap option_fmap option_map] in *.
  - constructor; assumption.
  - (* receive *)
    inv_open.
    + split; eauto.
    + eauto.
    + apply deque_append_length, Hl.
    + etransitivity; [|apply sublist_app; [exact Hf | reflexivity]].
      rewrite <- app_assoc. apply sublist_app; [reflexivity|].
      apply deque_append_sublist.
    + pose proof (deque_append_nonempty q (mkJob n ts dl du loc)).
      destruct th as [[[] b]|]; cbn [at_pc nozzleOn] in *; intuition.
    + inv_own Ho.
    + inv_hand Hh.
  - (* start *)
    inv_open; eauto; try inv_own Ho; try inv_hand Hh. split; eauto.
  - inv_open; eauto; try inv_own Ho; try inv_hand Hh.
    rewrite Hp. discriminate.
  - (* pop *)
    inv_open.
    + split; eauto.
    + eauto.
    + rewrite H in Hl. simpl in Hl. unfold maxlen in *. lia.
    + rewrite popped_app, <- app_assoc. simpl. rewrite <- H. exact Hf.
    + rewrite phase_from_app. cbn.
      destruct Hp as [[-> ->]|[[-> ->]|(-> & -> & _)]]; cbn; auto.
    + inv_own Ho.
    + inv_hand Hh.
  - (* drained *)
    inv_open.
    + split; eauto.
    + eauto.
    + exact Hl.
    + rewrite popped_app. simpl. rewrite app_nil_r. exact Hf.
    + rewrite phase_from_app. cbn.
      destruct Hp as [[-> ->]|[[-> ->]|(-> & -> & Hq)]]; cbn;
        try (split; [reflexivity | split; [reflexivity | discriminate]]).
      contradiction.
    + inv_own Ho.
    + inv_hand Hh.
  - (* drained, KeyError *)
    inv_open; eauto; try inv_own Ho; try inv_hand Hh.
    destruct Hp as [[-> ->]|[[-> ->]|(-> & -> & _)]]; discriminate.
  - (* process, nozzle on *)
    inv_open.
    + split; eauto.
    + eauto.
    + exact Hl.
    + rewrite popped_app. simpl. rewrite app_nil_r. exact Hf.
    + rewrite phase_from_app. cbn.
      destruct Hp as [[_ ?]|[-> _]]; [discriminate|]. auto.
    + inv_own Ho.
    + inv_hand Hh.
  - (* process, nozzle off *)
    inv_open.
    + split; eauto.
    + eauto.
    + exact Hl.
    + rewrite popped_app. simpl. rewrite app_nil_r. exact Hf.
    + rewrite phase_from_app. cbn.
      destruct Hp as [[-> _]|[_ ?]]; [|discriminate]. auto.
    + inv_own Ho.
    + inv_hand Hh.
  - (* process, KeyError *)
    inv_open.
    + exact Hk.
    + eauto.
    + exact Hl.
    + rewrite popped_app. simpl. rewrite app_nil_r. exact Hf.
    + rewrite phase_from_app. cbn.
      destruct Hp as [[-> _]|[_ ?]]; discriminate.
    + inv_own Ho.
    + inv_hand Hh.
  - (* wake *)
    inv_open.
    + split; eauto.
    + eauto.
    + exact Hl.
    + exact Hf.
    + destruct Hp as (Hp & Hb & Hq). specialize (Hq eq_refl).
      destruct H as [-> | ->]; cbn; [auto | rewrite Hp; discriminate].
    + inv_own Ho.
    + destruct H as [-> | ->]; inv_hand Hh.
Qed.

Lemma chan_inv_init n items : chan_inv n (view n (init items)).
Proof.
  rewrite view_init. destruct (decide _); inv_open; eauto;
    try reflexivity; try (cbn; lia); try inv_hand I.
  - split; eauto.
  - split; intros [? [=]].
  - intros [? [=]].
Qed.

(** Every state a schedule leads to satisfies the invariant. *)
Lemma chan_inv_exec n items sched :
  chan_inv n (view n (exec (init items) sched)).
Proof.
  apply (exec_ind (fun _ => True)).
  - apply chan_inv_init.
  - intros s i _ H. exact (chan_inv_step n i _ _ (step_vstep n s i) H).
  - apply Forall_forall. auto.
Qed.

(** ** The order of a consumer's calls *)

Lemma phase_from_bad l : phase_from Bad l = Bad.
Proof. induction l as [|e l IH]; [reflexivity|]. destruct e; exact IH. Qed.

Lemma phase_from_prefix p a b : phase_from p (a ++ b) <> Bad -> phase_from p a <> Bad.
Proof.
  rewrite phase_from_app. intros H E. rewrite E, phase_from_bad in H. auto.
Qed.

Lemma phase_ok_not_bad v : phase_ok v -> phase_from Fresh (v_events v) <> Bad.
Proof.
  unfold phase_ok.
  destruct (v_thread v) as [[[] b]|]; cbn [at_pc nozzleOn]; intros H;
    try (intros E; rewrite E in H; intuition discriminate); auto.
Qed.

(** Between two relay-off calls. *)
Lemma on_count_off_free l p :
  count is_off l = O -> phase_from p l <> Bad ->
  (count is_on l + ons_since_off p)%nat = ons_since_off (phase_from p l).
Proof.
  revert p. induction l as [|e l IH]; intros p Hoff Hbad; [reflexivity|].
  cbn [count] in Hoff. cbn [phase_from fold_left] in *.
  change (fold_left phase_step l (phase_step p e))
    with (phase_from (phase_step p e) l) in *.
  assert (Hl : count is_off l = O) by lia.
  rewrite <- (IH _ Hl Hbad). cbn [count].
  destruct e, p; cbn in *; try lia; try discriminate;
    exfalso; apply Hbad, phase_from_bad.
Qed.

(** Between two relay-on calls. *)
Lemma off_count_on_free l p :
  p <> Fresh -> count is_on l = O -> phase_from p l <> Bad ->
  (count is_off l + offs_since_on p)%nat = offs_since_on (phase_from p l).
Proof.
  revert p. induction l as [|e l IH]; intros p Hp Hon Hbad; [reflexivity|].
  cbn [count] in Hon. cbn [phase_from fold_left] in *.
  change (fold_left phase_step l (phase_step p e))
    with (phase_from (phase_step p e) l) in *.
  assert (Hl : count is_on l = O) by lia.
  assert (Hp' : phase_step p e <> Fresh) by (destruct e, p; cbn; congruence).
  rewrite <- (IH _ Hp' Hl Hbad). cbn [count].
  destruct e, p; cbn in *; try lia; try discriminate; try congruence;
    exfalso; apply Hbad, phase_from_bad.
Qed.

(** A job taken and no relay-off since: the consumer is not idle. *)
Lemma pop_leaves_idle l p :
  count is_off l = O -> (0 < count is_pop l)%nat ->
  phase_from p l <> Fresh /\ phase_from p l <> Idle.
Proof.
  assert (Hbusy : forall l p, count is_off l = O ->
            (p = Armed \/ p = Active \/ p = Bad) ->
            phase_from p l <> Fresh /\ phase_from p l <> Idle).
  { clear. induction l as [|e l IH]; intros p Hoff Hp.
    - cbn. intuition congruence.
    - cbn [count] in Hoff. cbn [phase_from fold_left].
      apply IH; [lia|].
      destruct e, p; cbn in *; intuition (try discriminate; try lia). }
  revert p. induction l as [|e l IH]; intros p Hoff Hpop; [cbn in Hpop; lia|].
  cbn [count] in Hoff, Hpop. cbn [phase_from fold_left].
  destruct (is_pop e) eqn:E.
  - apply Hbusy; [lia|]. destruct e, p; cbn in *; auto; discriminate.
  - apply IH; lia.
Qed.

Lemma phase_after_off p l k :
  phase_from p (l ++ [RelayOff k]) <> Bad -> phase_from p (l ++ [RelayOff k]) = Idle.
Proof.
  rewrite phase_from_app. cbn. destruct (phase_from p l); cbn; congruence.
Qed.

Lemma phase_after_on p l k :
  phase_from p (l ++ [RelayOn k]) <> Bad -> phase_from p (l ++ [RelayOn k]) = Active.
Proof.
  rewrite phase_from_app. cbn. destruct (phase_from p l); cbn; congruence.
Qed.

(** No job taken yet: at most the relay-off of the start. *)
Lemma relay_calls_before_first_pop l p :
  count is_pop l = O -> phase_from p l <> Bad ->
  (p = Fresh -> relay_calls l = [] \/ exists k, relay_calls l = [RelayOff k])
  /\ (p = Idle -> relay_calls l = []).
Proof.
  revert p. induction l as [|e l IH]; intros p Hpop Hbad; [cbn; auto|].
  cbn [count] in Hpop. cbn [phase_from fold_left] in Hbad.
  change (fold_left phase_step l (phase_step p e))
    with (phase_from (phase_step p e) l) in *.
  assert (Hl : count is_pop l = O) by lia.
  destruct (IH _ Hl Hbad) as [IHf IHi].
  destruct e; cbn in Hpop; try lia; cbn [relay_calls List.filter is_on is_off orb];
    fold (relay_calls l); cbn [phase_step] in *;
    try (split; intros ->; auto; fail).
  - (* RelayOn *)
    split; intros ->; cbn in Hbad; exfalso; apply Hbad, phase_from_bad.
  - (* RelayOff *)
    split; intros ->; cbn in *.
    + right. exists solenoidNumber. rewrite (IHi eq_refl). reflexivity.
    + exfalso; apply Hbad, phase_from_bad.
Qed.

Lemma consumer_phase_not_bad n items sched :
  phase_from Fresh (consumer_events n (trace (exec (init items) sched))) <> Bad.
Proof.
  exact (phase_ok_not_bad _ (inv_phase _ _ (chan_inv_exec n items sched))).
Qed.

(** C6. Take the events of one consumer in any state a schedule leads to.
    In any stretch of them without a relay-off call there is at most one
    relay-on call; and in a run, the stretch from the start or from a
    relay-off call up to the next relay-off call in which a job was taken,
    there is exactly one, however many jobs were taken. *)
Theorem energized_once_per_run (items : list (Z * Z)) (sched : list input) (n : Z) :
  let evs := consumer_events n (trace (exec (init items) sched)) in
  (forall pre mid post,
      evs = pre ++ mid ++ post ->
      count is_off mid = O ->
      (count is_on mid <= 1)%nat)
  /\ (forall pre mid post,
        evs = pre ++ mid ++ RelayOff n :: post ->
        (pre = [] \/ exists pre', pre = pre' ++ [RelayOff n]) ->
        count is_off mid = O ->
        (0 < count is_pop mid)%nat ->
        count is_on mid = 1%nat).
Proof.
  intros evs. pose proof (consumer_phase_not_bad n items sched) as Hbad.
  fold evs in Hbad. split.
  - intros pre mid post E Hoff. rewrite E in Hbad.
    rewrite app_assoc in Hbad. apply phase_from_prefix in Hbad.
    rewrite phase_from_app in Hbad.
    pose proof (on_count_off_free mid _ Hoff Hbad) as H.
    destruct (phase_from (phase_from Fresh pre) mid); cbn in H; lia.
  - intros pre mid post E Hpre Hoff Hpop. rewrite E in Hbad.
    change (RelayOff n :: post) with ([RelayOff n] ++ post) in Hbad.
    rewrite !app_assoc in Hbad. apply phase_from_prefix in Hbad.
    assert (H0 : ons_since_off (phase_from Fresh pre) = O).
    { destruct Hpre as [-> | [pre' ->]]; [reflexivity|].
      do 2 apply phase_from_prefix in Hbad.
      rewrite (phase_after_off _ _ _ Hbad). reflexivity. }
    rewrite <- app_assoc, phase_from_app in Hbad.
    pose proof (phase_from_prefix _ _ _ Hbad) as Hmid.
    pose proof (on_count_off_free mid _ Hoff Hmid) as H.
    destruct (pop_leaves_idle mid (phase_from Fresh pre) Hoff Hpop) as [Hf Hi].
    rewrite phase_from_app in Hbad. cbn in Hbad.
    destruct (phase_from (phase_from Fresh pre) mid); cbn in *;
      try congruence; lia.
Qed.

Lemma energized_once_per_run_witness :
  let j1 := mkJob 0 10 0 2 0 in
  let j2 := mkJob 0 11 0 2 0 in
  let mid := [Popleft j1; Sleep 0; RelayOn 0; Sleep 1; LogLine (InfoOnDur 1 0);
              Popleft j2; Sleep 1; LogLine (InfoOnDur 1 0)] in
  count is_pop mid = 2%nat /\ count is_on mid = 1%nat.
Proof.
  intros j1 j2 mid. split; [reflexivity|].
  apply (proj2 (energized_once_per_run [(0, 13)]
                  [Run 0 0; Run 0 0; CallReceive 0 10 0 0 2;
                   CallReceive 0 11 0 0 2; Run 0 11; Run 0 11; Run 0 11;
                   Run 0 12; Run 0 12; Run 0 12] 0)
               [RelayOff 0] mid []).
  - vm_compute. reflexivity.
  - right. exists []. reflexivity.
  - reflexivity.
  - cbn. lia.
Defined.

(** ** Before the first job *)

Lemma vstep_appended n i v v' :
  is_receive_for n i = false -> vstep n i v v' -> v_appended v' = v_appended v.
Proof.
  intros Hi Hstep. destruct Hstep; try reflexivity.
  cbn in Hi. rewrite Z.eqb_refl in Hi. discriminate.
Qed.

Lemma nothing_appended_without_receive n items sched :
  Forall (fun i => is_receive_for n i = false) sched ->
  appended n (trace (exec (init items) sched)) = [].
Proof.
  apply (exec_ind (fun i => is_receive_for n i = false)
                  (fun s => v_appended (view n s) = [])).
  - rewrite view_init. destruct (decide _); reflexivity.
  - intros s i Hi H.
    rewrite (vstep_appended n i _ _ Hi (step_vstep n s i)). exact H.
Qed.

Lemma relay_calls_own n l k :
  forallb (own_relay n) l = true -> relay_calls l = [RelayOff k] -> k = n.
Proof.
  induction l as [|e l IH]; [discriminate|].
  cbn [forallb relay_calls List.filter]. fold (relay_calls l).
  intros [He Hl]%andb_true_iff.
  destruct e; cbn [is_on is_off orb]; auto; try discriminate.
  intros [= ->]. cbn in He. apply Z.eqb_eq in He. auto.
Qed.

(** C2 as stated fails: with no [receive] at all, the consumer of nozzle 0
    calls [relay_off(0)] when it first finds its queue empty, before it
    waits. *)
Lemma relay_off_before_any_receive :
  let sched := [Run 0 0; Run 0 0] in
  let s := exec (init [(0, 13)]) sched in
  forallb (fun i => negb (is_receive_for 0 i)) sched = true
  /\ consumer_events 0 (trace s) = [RelayOff 0]
  /\ at_pc <$> threads s !! 0 = Some InWait.
Proof. vm_compute. auto. Qed.

(** C2, amended. Until [receive] is first called for its nozzle a consumer
    makes no relay-on call and at most one relay-off call, the one it makes
    on first finding its queue empty.  Between two relay-on calls there is
    exactly one relay-off call, and whenever the consumer is inside
    [wait()] there is exactly one since its last relay-on call. *)
Theorem off_once_per_run (items : list (Z * Z)) (sched : list input) (n : Z) :
  let s := exec (init items) sched in
  let evs := consumer_events n (trace s) in
  (Forall (fun i => is_receive_for n i = false) sched ->
   relay_calls evs = [] \/ relay_calls evs = [RelayOff n])
  /\ (forall pre mid post,
        evs = pre ++ RelayOn n :: mid ++ RelayOn n :: post ->
        count is_on mid = O ->
        count is_off mid = 1%nat)
  /\ (forall pre mid,
        at_pc <$> threads s !! n = Some InWait ->
        evs = pre ++ RelayOn n :: mid ->
        count is_on mid = O ->
        count is_off mid = 1%nat).
Proof.
  intros s evs.
  pose proof (chan_inv_exec n items sched) as [_ _ _ Hf Hp Ho _].
  pose proof (phase_ok_not_bad _ Hp) as Hbad.
  fold s in Hf, Hp, Ho, Hbad. cbn [view v_events v_appended v_thread] in *.
  fold evs in Hf, Hp, Ho, Hbad.
  split; [|split].
  - intros Hsched.
    pose proof (nothing_appended_without_receive n items sched Hsched) as Happ.
    fold s in Happ. rewrite Happ in Hf.
    apply sublist_nil_r, app_eq_nil in Hf. destruct Hf as [Hpop _].
    assert (Hc : count is_pop evs = O).
    { clear -Hpop. induction evs as [|e l IH]; [reflexivity|].
      destruct e; cbn in *; try discriminate; auto. }
    destruct (relay_calls_before_first_pop evs Fresh Hc Hbad) as [H _].
    destruct (H eq_refl) as [E | [k E]]; [auto|].
    right. rewrite E. f_equal. f_equal. exact (relay_calls_own n evs k Ho E).
  - intros pre mid post E Hon. rewrite E in Hbad.
    change (RelayOn n :: mid ++ RelayOn n :: post)
      with ([RelayOn n] ++ mid ++ [RelayOn n] ++ post) in Hbad.
    rewrite !app_assoc in Hbad. apply phase_from_prefix in Hbad.
    rewrite <- !app_assoc in Hbad. rewrite app_assoc in Hbad.
    rewrite phase_from_app in Hbad.
    pose proof (phase_from_prefix _ _ _ Hbad) as Hmid.
    assert (Hact : phase_from Fresh (pre ++ [RelayOn n]) = Active).
    { apply phase_after_on. intros X. rewrite X, phase_from_bad in Hbad. auto. }
    rewrite Hact in *.
    pose proof (off_count_on_free mid Active ltac:(discriminate) Hon Hmid) as H.
    rewrite phase_from_app in Hbad. cbn in Hbad.
    destruct (phase_from Active mid); cbn in *; try congruence; lia.
  - intros pre mid Hth E Hon. unfold phase_ok in Hp.
    cbn [v_thread view] in Hp. fold s in Hp.
    destruct (threads s !! n) as [[p b]|]; [|discriminate].
    cbn in Hth. injection Hth as ->. cbn [at_pc] in Hp.
    destruct Hp as (Hidle & _).
    change (v_events (view n s)) with evs in Hidle.
    rewrite E in Hidle, Hbad.
    change (RelayOn n :: mid) with ([RelayOn n] ++ mid) in Hidle, Hbad.
    rewrite app_assoc, phase_from_app in Hidle, Hbad.
    assert (Hact : phase_from Fresh (pre ++ [RelayOn n]) = Active).
    { apply phase_after_on. intros X. rewrite X, phase_from_bad in Hbad. auto. }
    rewrite Hact in *.
    pose proof (off_count_on_free mid Active ltac:(discriminate) Hon Hbad) as H.
    rewrite Hidle in H. cbn in H. lia.
Qed.

Lemma off_once_per_run_witness :
  let s := exec (init [(0, 13)])
             [Run 0 0; Run 0 0; CallReceive 0 10 0 0 2; Run 0 11; Run 0 11;
              Run 0 11; Run 0 11] in
  relay_calls (consumer_events 0 (trace (exec (init [(0, 13)]) [Run 0 0; Run 0 0])))
  = [RelayOff 0]
  /\ at_pc <$> threads s !! 0 = Some InWait
  /\ count is_off [Sleep 1; LogLine (InfoOnDur 1 0); RelayOff 0] = 1%nat.
Proof.
  intros s. split; [|split].
  - destruct (proj1 (off_once_per_run [(0, 13)] [Run 0 0; Run 0 0] 0)) as [H|H].
    + repeat constructor.
    + vm_compute in H. discriminate H.
    + exact H.
  - vm_compute. reflexivity.
  - apply (proj2 (proj2 (off_once_per_run [(0, 13)]
             [Run 0 0; Run 0 0; CallReceive 0 10 0 0 2; Run 0 11; Run 0 11;
              Run 0 11; Run 0 11] 0))
             [RelayOff 0; Popleft (mkJob 0 10 0 2 0); Sleep 0]).
    + vm_compute. reflexivity.
    + vm_compute. reflexivity.
    + reflexivity.
Defined.

(** ** The bounded queue *)

Lemma deque_append_full q j :
  length q = maxlen -> deque_append q j = drop 1 q ++ [j].
Proof.
  intros H. unfold deque_append. rewrite length_app, H. cbn.
  destruct q; [discriminate|]. reflexivity.
Qed.

Lemma fold_deque_append js :
  fold_left deque_append js [] = drop (length js - maxlen) js.
Proof.
  induction js as [|j js IH] using rev_ind; [reflexivity|].
  rewrite fold_left_app, IH. cbn [fold_left]. unfold deque_append.
  rewrite !length_app, length_drop. cbn [length]. unfold maxlen.
  destruct (5 <? length js - (length js - 5) + 1)%nat eqn:E.
  - apply Nat.ltb_lt in E.
    rewrite drop_app_le by (rewrite length_drop; lia).
    rewrite drop_drop.
    replace (length js + 1 - 5)%nat with (length js - 5 + 1)%nat by lia.
    rewrite drop_app_le by lia. reflexivity.
  - apply Nat.ltb_ge in E.
    replace (length js - 5)%nat with O by lia.
    replace (length js + 1 - 5)%nat with O by lia. reflexivity.
Qed.

Lemma receive_free n ts loc dl du s q c :
  nozzleQueueDict s !! n = Some q ->
  nozzleconditionDict s !! n = Some c ->
  locked c = false ->
  receive n ts loc dl du MainThread s
  = (Ok tt,
     add_events [(MainThread, LogLine (ReceiveLine (PInt n) (PNum ts)
                                         (PNum dl) (PNum du) (PInt loc)))]
       (set_condition n (release (notify (acquire c)))
         (add_events [(MainThread, Append (mkJob n ts dl du loc))]
           (set_queue n (deque_append q (mkJob n ts dl du loc)) s)))).
Proof. intros Hq Hc Hl. rewrite receive_eq, Hq, Hc, Hl. reflexivity. Qed.

Lemma exec_cons s i l : exec s (i :: l) = exec (step s i) l.
Proof. reflexivity. Qed.

Lemma receive_all n js : forall s q c,
  Forall (fun j => job_nozzle j = n) js ->
  nozzleQueueDict s !! n = Some q ->
  nozzleconditionDict s !! n = Some c ->
  locked c = false ->
  nozzleQueueDict (exec s (map call_of_job js)) !! n
  = Some (fold_left deque_append js q).
Proof.
  induction js as [|j js IH]; intros s q c Hn Hq Hc Hl; [exact Hq|].
  inversion Hn as [|? ? Hj Hjs]; subst. cbn [map]. rewrite exec_cons.
  destruct j as [jn ts dl du loc]. cbn [job_nozzle] in *.
  change (step s (call_of_job (mkJob jn ts dl du loc)))
    with (receive jn ts loc dl du MainThread s).2.
  rewrite (receive_free _ _ _ _ _ _ q c) by assumption. cbn [snd].
  eapply IH; [exact Hjs | | | ].
  - cbn. apply lookup_insert_eq.
  - cbn. apply lookup_insert_eq.
  - reflexivity.
Qed.

(** C5. A queue never holds more than 5 jobs; [receive] on a queue that
    holds 5 returns normally, leaves the last 4 of them followed by the new
    job, and records only the append and the usual audit line; and any jobs
    received in a row by a new controller leave their last 5 in the queue,
    in the order received, so 6 jobs leave the 2nd to the 6th. *)
Theorem queue_keeps_last_five (items : list (Z * Z)) (n : Z) :
  (forall sched q,
      nozzleQueueDict (exec (init items) sched) !! n = Some q ->
      (length q <= 5)%nat)
  /\ (forall s q c ts loc dl du,
        nozzleQueueDict s !! n = Some q ->
        nozzleconditionDict s !! n = Some c ->
        locked c = false ->
        length q = 5%nat ->
        let r := receive n ts loc dl du MainThread s in
        r.1 = Ok tt
        /\ nozzleQueueDict r.2 !! n = Some (drop 1 q ++ [mkJob n ts dl du loc])
        /\ trace r.2
           = trace s ++ [(MainThread, Append (mkJob n ts dl du loc));
                         (MainThread,
                          LogLine (ReceiveLine (PInt n) (PNum ts) (PNum dl)
                                               (PNum du) (PInt loc)))])
  /\ (forall js,
        0 <= n < Z.of_nat (length items) ->
        Forall (fun j => job_nozzle j = n) js ->
        nozzleQueueDict (exec (init items) (map call_of_job js)) !! n
        = Some (drop (length js - 5) js))
  /\ (forall j1 j2 j3 j4 j5 j6,
        0 <= n < Z.of_nat (length items) ->
        Forall (fun j => job_nozzle j = n) [j1; j2; j3; j4; j5; j6] ->
        nozzleQueueDict
          (exec (init items) (map call_of_job [j1; j2; j3; j4; j5; j6])) !! n
        = Some [j2; j3; j4; j5; j6]).
Proof.
  assert (Hall : forall js,
            0 <= n < Z.of_nat (length items) ->
            Forall (fun j => job_nozzle j = n) js ->
            nozzleQueueDict (exec (init items) (map call_of_job js)) !! n
            = Some (drop (length js - 5) js)).
  { intros js Hn Hjs.
    pose proof (view_init n items) as Hv.
    destruct (decide (0 <= n < Z.of_nat (length items))); [|lia].
    rewrite (receive_all n js (init items) [] (mkCondition false NoWaiter));
      auto.
    - rewrite fold_deque_append. reflexivity.
    - exact (f_equal v_queue Hv).
    - exact (f_equal v_cond Hv). }
  split; [|split; [|split]].
  - intros sched q Hq.
    pose proof (inv_length _ _ (chan_inv_exec n items sched)) as Hl.
    unfold queue_of in Hl. cbn [view v_queue] in Hl. rewrite Hq in Hl.
    exact Hl.
  - intros s q c ts loc dl du Hq Hc Hl Hlen r. subst r.
    rewrite (receive_free _ _ _ _ _ _ q c) by assumption. cbn [fst snd].
    split; [reflexivity|]. split.
    + cbn. rewrite lookup_insert_eq, deque_append_full by exact Hlen.
      reflexivity.
    + cbn. rewrite <- app_assoc. reflexivity.
  - exact Hall.
  - intros j1 j2 j3 j4 j5 j6 Hn Hjs. exact (Hall _ Hn Hjs).
Qed.

Lemma queue_keeps_last_five_witness :
  let j k := mkJob 0 (inject_Z k) 0 1 0 in
  nozzleQueueDict
    (exec (init [(0, 13); (1, 15)]) (map call_of_job [j 1; j 2; j 3; j 4; j 5; j 6]))
    !! 0
  = Some [j 2; j 3; j 4; j 5; j 6].
Proof.
  intros j.
  apply (proj2 (proj2 (proj2 (queue_keeps_last_five [(0, 13); (1, 15)] 0)))).
  - cbn. lia.
  - repeat constructor.
Defined.

(** ** The nozzles that have a queue *)

Lemma vstep_queue_some n i v v' :
  vstep n i v v' -> chan_inv n v ->
  (is_Some (v_queue v') <-> is_Some (v_queue v)).
Proof.
  intros Hstep [_ Ht _ _ _ _ _].
  destruct Hstep; cbn [v_queue v_thread] in *; try reflexivity;
    split; eauto.
Qed.

Lemma queue_keys n items sched :
  is_Some (nozzleQueueDict (exec (init items) sched) !! n)
  <-> 0 <= n < Z.of_nat (length items).
Proof.
  apply (exec_ind (fun _ => True)
           (fun s => chan_inv n (view n s)
                     /\ (is_Some (v_queue (view n s))
                         <-> 0 <= n < Z.of_nat (length items)))).
  - split; [apply chan_inv_init|].
    rewrite view_init. destruct (decide _); cbn; split; eauto; try lia.
    intros [? [=]].
  - intros s i _ [Hinv Hk].
    pose proof (step_vstep n s i) as Hstep.
    split; [exact (chan_inv_step _ _ _ _ Hstep Hinv)|].
    rewrite (vstep_queue_some _ _ _ _ Hstep Hinv). exact Hk.
  - apply Forall_forall. auto.
Qed.

(** ** Removing a solenoid *)

Lemma dict_get_pop k n d :
  dict_get k (dict_pop n d) = if Z.eqb k n then None else dict_get k d.
Proof.
  induction d as [|[k' v] d IH]; [destruct (Z.eqb k n); reflexivity|].
  cbn [dict_pop List.filter fst]. fold (dict_pop n d).
  destruct (Z.eqb_spec n k') as [<-|Hne]; cbn [negb dict_get].
  - rewrite IH. destruct (Z.eqb k n); reflexivity.
  - rewrite IH. destruct (Z.eqb_spec k k') as [->|]; [|reflexivity].
    destruct (Z.eqb_spec k' n); [congruence | reflexivity].
Qed.

Lemma deref_remove n s :
  deref (solenoidDict s) (remove n MainThread s).2
  = dict_pop n (deref (solenoidDict s) s).
Proof.
  unfold remove, modify, deref. cbn [snd set_heap heap].
  destruct (heap s !! solenoidDict s) as [d|] eqn:E.
  - rewrite list_lookup_insert_eq by (eapply lookup_lt_Some; exact E).
    reflexivity.
  - rewrite list_insert_ge by (apply lookup_ge_None; exact E).
    rewrite E. reflexivity.
Qed.

(** C9 as stated fails: after [remove(0)] the nozzle still has its queue,
    [receive] for it still enqueues the job, and the consumer takes the job
    and ends with [KeyError] at [relay_on(0)]. *)
Lemma receive_after_remove_still_enqueues :
  let s := exec (init [(0, 13)]) [Run 0 0; Run 0 0; CallRemove 0] in
  let s1 := step s (CallReceive 0 10 0 0 1) in
  let s2 := exec s1 [Run 0 10; Run 0 10; Run 0 10] in
  dict_get 0 (deref (solenoidDict s) s) = None
  /\ nozzleQueueDict s !! 0 = Some []
  /\ nozzleQueueDict s1 !! 0 = Some [mkJob 0 10 0 1 0]
  /\ popped (consumer_events 0 (trace s2)) = [mkJob 0 10 0 1 0]
  /\ at_pc <$> threads s2 !! 0 = Some (Crashed KeyError).
Proof. vm_compute. auto. Qed.

(** C9, amended. [remove(n)] takes the entry of solenoid [n], and no
    other, out of the relay dict; the queues, the conditions, the threads and
    the trace are as before, so a later [receive] for [n] returns what it
    would have returned and enqueues what it would have enqueued; a later
    [relay_on(n)] raises [KeyError]. *)
Theorem remove_unmaps_only_the_relay (n : Z) (s : State) :
  let s' := step s (CallRemove n) in
  dict_get n (deref (solenoidDict s') s') = None
  /\ (forall k, k <> n ->
        dict_get k (deref (solenoidDict s') s')
        = dict_get k (deref (solenoidDict s) s))
  /\ nozzleQueueDict s' = nozzleQueueDict s
  /\ nozzleconditionDict s' = nozzleconditionDict s
  /\ threads s' = threads s
  /\ trace s' = trace s
  /\ (forall ts loc dl du,
        (receive n ts loc dl du MainThread s').1
        = (receive n ts loc dl du MainThread s).1
        /\ nozzleQueueDict (receive n ts loc dl du MainThread s').2
           = nozzleQueueDict (receive n ts loc dl du MainThread s).2)
  /\ (forall t, (relay_on n t s').1 = Raise KeyError).
Proof.
  intros s'. subst s'. cbn [step].
  change (solenoidDict (remove n MainThread s).2) with (solenoidDict s).
  rewrite deref_remove.
  assert (Hn : dict_get n (dict_pop n (deref (solenoidDict s) s)) = None)
    by (rewrite dict_get_pop, Z.eqb_refl; reflexivity).
  split; [exact Hn|]. split.
  { intros k Hk. rewrite dict_get_pop.
    apply Z.eqb_neq in Hk. rewrite Hk. reflexivity. }
  do 4 (split; [reflexivity|]). split.
  - intros ts loc dl du. rewrite !receive_eq.
    change (nozzleQueueDict (remove n MainThread s).2) with (nozzleQueueDict s).
    change (nozzleconditionDict (remove n MainThread s).2)
      with (nozzleconditionDict s).
    destruct (nozzleQueueDict s !! n); [|auto].
    destruct (nozzleconditionDict s !! n) as [c|]; [|auto].
    destruct (locked c); auto.
  - intros t. rewrite relay_on_unmapped; [reflexivity|].
    change (solenoidDict (remove n MainThread s).2) with (solenoidDict s).
    rewrite deref_remove. exact Hn.
Qed.

Lemma remove_unmaps_only_the_relay_witness :
  let s := init [(0, 13); (1, 15)] in
  let s' := step s (CallRemove 0) in
  dict_get 1 (deref (solenoidDict s') s') = Some (mkRelay 15 false).
Proof.
  intros s s'.
  destruct (remove_unmaps_only_the_relay 0 s) as (_ & H & _).
  exact (H 1 ltac:(discriminate)).
Defined.

(** * Further properties of the controller *)

(** ** The lock and the waiter *)

Lemma sync_ok_step n i v v' :
  vstep n i v v' -> chan_inv n v -> sync_ok v -> sync_ok v'.
Proof.
  intros Hstep [_ Ht _ _ _ _ _] Hs.
  destruct Hstep; unfold sync_ok, queue_of in *;
    cbn [v_thread v_queue v_cond at_pc default id] in *; auto.
  all: try (simplify_eq; cbn; auto; fail).
  - (* receive *)
    pose proof (deque_append_nonempty q (mkJob n ts dl du loc)) as Hne.
    destruct th as [[[] b]|]; cbn [at_pc] in *; auto;
      try (simplify_eq; cbn in *; auto; discriminate).
    destruct Hs as [[? _]|[? _]]; simplify_eq; right; split; auto.
  - destruct H as [-> | ->]; cbn; auto.
Qed.

Lemma sync_ok_exec n items sched :
  sync_ok (view n (exec (init items) sched)).
Proof.
  apply (exec_ind (fun _ => True)
           (fun s => chan_inv n (view n s) /\ sync_ok (view n s))).
  - split; [apply chan_inv_init|].
    rewrite view_init. destruct (decide _); cbn; auto.
  - intros s i _ [Hinv Hs]. pose proof (step_vstep n s i) as Hstep.
    split; [exact (chan_inv_step _ _ _ _ Hstep Hinv)|].
    exact (sync_ok_step _ _ _ _ Hstep Hinv Hs).
  - apply Forall_forall. auto.
Qed.

(** ** The consumers never leave their loop *)

Lemma never_returns_framed t s s' :
  framed t s s' -> never_returns s -> never_returns s'.
Proof.
  intros (_ & _ & T & R & _) H n th. rewrite T, R. apply H.
Qed.

Lemma never_returns_thread m th' X s :
  threads X = threads s ->
  (running X = running s \/ running X = true) ->
  at_pc th' <> Returned ->
  (at_pc th' = AtStart \/ running X = true) ->
  never_returns s -> never_returns (set_thread m th' X).
Proof.
  intros HT HR H1 H2 H n th. cbn [threads set_thread running]. rewrite HT.
  destruct (decide (m = n)) as [->|Hne].
  - rewrite lookup_insert_eq. intros [= <-]. auto.
  - rewrite lookup_insert_ne by exact Hne. intros Hn.
    destruct (H n th Hn) as [Ha [Hb|Hb]]; split; auto.
    right. destruct HR as [-> | ->]; auto.
Qed.

Lemma never_returns_step s i : never_returns s -> never_returns (step s i).
Proof.
  intros H. destruct i; cbn [step].
  - rewrite receive_eq.
    destruct (nozzleQueueDict s !! nozzle) as [q|]; [|exact H].
    destruct (nozzleconditionDict s !! nozzle) as [c|]; [|exact H].
    destruct (locked c); exact H.
  - exact (never_returns_framed _ _ _ (all_on_framed _ _) H).
  - exact (never_returns_framed _ _ _ (all_off_framed _ _) H).
  - exact (never_returns_framed _ _ _ (remove_framed _ _ _) H).
  - exact (never_returns_framed _ _ _ (clear_framed _ _) H).
  - exact (never_returns_framed _ _ _ (stop_framed _ _) H).
  - exact (never_returns_framed _ _ _ (beep_framed _ _ _ _) H).
  - unfold consumer_step.
    destruct (threads s !! nozzle) as [[p b]|] eqn:Hth; [|exact H].
    destruct (H _ _ Hth) as [Hret Hrun]. cbn [at_pc nozzleOn] in *.
    destruct p; try exact H; try congruence.
    + cbn [set_running nozzleconditionDict nozzleQueueDict].
      destruct (nozzleconditionDict s !! nozzle) as [c|];
        [destruct (nozzleQueueDict s !! nozzle) as [q|]|];
        apply (never_returns_thread _ _ _ s); cbn; auto; discriminate.
    + destruct (default [] (nozzleQueueDict s !! nozzle)) as [|j rest].
      * destruct (dict_get nozzle (deref (solenoidDict s) s)) as [relay|] eqn:Hr.
        -- rewrite (relay_off_mapped _ relay) by exact Hr.
           apply (never_returns_thread _ _ _ s); cbn; auto;
             try discriminate; destruct Hrun; auto; discriminate.
        -- rewrite relay_off_unmapped by exact Hr.
           apply (never_returns_thread _ _ _ s); cbn; auto;
             try discriminate; destruct Hrun; auto; discriminate.
      * apply (never_returns_thread _ _ _ s); cbn; auto;
          try discriminate; destruct Hrun; auto; discriminate.
    + destruct b.
      * rewrite process_on.
        apply (never_returns_thread _ _ _ s); cbn; auto;
          try discriminate; destruct Hrun; auto; discriminate.
      * destruct (dict_get nozzle (deref (solenoidDict s) s)) as [relay|] eqn:Hr.
        -- rewrite (process_off_mapped _ _ _ relay) by exact Hr.
           apply (never_returns_thread _ _ _ s); cbn; auto;
             try discriminate; destruct Hrun; auto; discriminate.
        -- rewrite process_off_unmapped by exact Hr.
           apply (never_returns_thread _ _ _ s); cbn; auto;
             try discriminate; destruct Hrun; auto; discriminate.
    + destruct Hrun as [|Hrun]; [discriminate|].
      destruct (nozzleconditionDict s !! nozzle) as [[[] []]|];
        try exact H.
      rewrite Hrun.
      apply (never_returns_thread _ _ _ s); cbn; auto; discriminate.
  - exact (never_returns_framed _ _ _ (finish_init_framed _ _) H).
Qed.

Lemma never_returns_init items : never_returns (init items).
Proof.
  intros n th Hth.
  pose proof (f_equal v_thread (view_init n items)) as Hv.
  cbn [view v_thread] in Hv. rewrite Hth in Hv.
  destruct (decide _); cbn in Hv; [|discriminate].
  injection Hv as ->. cbn. split; [discriminate | auto].
Qed.

Lemma never_returns_exec items sched :
  never_returns (exec (init items) sched).
Proof.
  apply (exec_ind (fun _ => True)).
  - apply never_returns_init.
  - intros s i _. apply never_returns_step.
  - apply Forall_forall. auto.
Qed.

(** X1. Under every schedule no consumer thread ever leaves
    [while self.running:], and [running] is true once the thread has run:
    nothing sets it to False. *)
Theorem consumers_never_return
    (items : list (Z * Z)) (sched : list input) (n : Z) (th : Thread) :
  let s := exec (init items) sched in
  threads s !! n = Some th ->
  at_pc th <> Returned /\ (at_pc th <> AtStart -> running s = true).
Proof.
  intros s Hth. destruct (never_returns_exec items sched n th Hth) as [H1 H2].
  split; [exact H1|]. intros Hne. destruct H2; [contradiction | assumption].
Qed.

Lemma consumers_never_return_witness :
  running (exec (init [(0, 13)]) [Run 0 0; Run 0 0]) = true.
Proof.
  refine (proj2 (consumers_never_return [(0, 13)] [Run 0 0; Run 0 0] 0
                   (mkThread InWait false) _) _).
  - vm_compute. reflexivity.
  - discriminate.
Defined.

(** ** When [receive] has to wait *)

(** X2. In any state a schedule leads to, [receive] for a nozzle whose
    consumer has not crashed waits for the lock exactly when the consumer is
    at its queue test, between two of its steps; while the consumer processes
    a job, sleeps included, or is inside [wait()], [receive] returns at
    once. *)
Theorem receive_waits_only_at_queue_test
    (items : list (Z * Z)) (sched : list input) (n : Z) (th : Thread)
    (ts : Q) (loc : Z) (dl du : Q) :
  let s := exec (init items) sched in
  threads s !! n = Some th ->
  is_crashed (at_pc th) = false ->
  (receive n ts loc dl du MainThread s).1
  = if is_queue_test (at_pc th) then Blocks else Ok tt.
Proof.
  intros s Hth Hcr.
  pose proof (sync_ok_exec n items sched) as Hs.
  pose proof (chan_inv_exec n items sched) as [_ Ht _ _ _ _ _].
  destruct (never_returns_exec items sched n th Hth) as [Hret _].
  fold s in Hs, Ht. unfold sync_ok, queue_of in Hs.
  cbn [view v_thread v_queue v_cond] in Hs, Ht. rewrite Hth in Hs, Ht.
  destruct Ht as [q Hq]; [eauto|].
  rewrite receive_eq, Hq.
  destruct th as [p b]. cbn [at_pc] in *.
  destruct p; try discriminate; try congruence;
    try (rewrite Hs; reflexivity).
  destruct Hs as [[-> _]|[-> _]]; reflexivity.
Qed.

Lemma receive_waits_only_at_queue_test_witness :
  (receive 0 10 0 0 1 MainThread (exec (init [(0, 13)]) [Run 0 0])).1 = Blocks
  /\ (receive 0 10 0 0 1 MainThread (exec (init [(0, 13)]) [Run 0 0; Run 0 0])).1
     = Ok tt.
Proof.
  split.
  - exact (receive_waits_only_at_queue_test [(0, 13)] [Run 0 0] 0
             (mkThread AtQueueTest false) 10 0 0 1 eq_refl eq_refl).
  - exact (receive_waits_only_at_queue_test [(0, 13)] [Run 0 0; Run 0 0] 0
             (mkThread InWait false) 10 0 0 1 eq_refl eq_refl).
Defined.

(** ** No lost wake-up *)

(** X3. In any state a schedule leads to, a consumer that is inside
    [wait()] while its queue holds a job has been notified: its next step
    leaves [wait()] with the lock, and the step after takes the oldest job of
    the queue, with the nozzle still off. *)
Theorem waiting_consumer_takes_oldest_job
    (items : list (Z * Z)) (sched : list input) (n : Z) (b : bool)
    (j : SprayJob) (rest : list SprayJob) (now1 now2 : Q) :
  let s := exec (init items) sched in
  threads s !! n = Some (mkThread InWait b) ->
  nozzleQueueDict s !! n = Some (j :: rest) ->
  let s1 := step s (Run n now1) in
  let s2 := step s1 (Run n now2) in
  nozzleconditionDict s !! n = Some (mkCondition false Notified)
  /\ threads s1 !! n = Some (mkThread AtQueueTest false)
  /\ threads s2 !! n = Some (mkThread (Processing j) false)
  /\ nozzleQueueDict s2 !! n = Some rest
  /\ trace s2 = trace s ++ [(Consumer n, Popleft j)].
Proof.
  intros s Hth Hq s1 s2.
  pose proof (sync_ok_exec n items sched) as Hs.
  pose proof (inv_phase _ _ (chan_inv_exec n items sched)) as Hp.
  destruct (never_returns_exec items sched n _ Hth) as [_ Hrun].
  fold s in Hs, Hp, Hrun. unfold sync_ok, phase_ok, queue_of in Hs, Hp.
  cbn [view v_thread v_queue v_cond at_pc nozzleOn] in Hs, Hp.
  rewrite Hth, Hq in Hs, Hp. cbn [at_pc nozzleOn default] in Hs, Hp, Hrun.
  destruct Hs as [[_ ?]|[Hc _]]; [discriminate|].
  destruct Hp as (_ & -> & _).
  destruct Hrun as [|Hrun]; [discriminate|].
  assert (E1 : s1 = set_thread n (mkThread AtQueueTest false)
                      (set_condition n (mkCondition true NoWaiter) s)).
  { unfold s1. cbn [step]. unfold consumer_step.
    rewrite Hth. cbn [at_pc nozzleOn]. rewrite Hc, Hrun. reflexivity. }
  assert (E2 : s2 = set_thread n (mkThread (Processing j) false)
                      (set_condition n (mkCondition false NoWaiter)
                         (add_events [(Consumer n, Popleft j)]
                            (set_queue n rest s1)))).
  { unfold s2. cbn [step]. unfold consumer_step. rewrite E1.
    cbn [threads set_thread set_condition nozzleQueueDict nozzleconditionDict].
    rewrite !lookup_insert_eq, Hq. reflexivity. }
  split; [exact Hc|]. split; [rewrite E1; cbn; apply lookup_insert_eq|].
  rewrite E2, E1. cbn. rewrite !lookup_insert_eq. auto.
Qed.

Lemma waiting_consumer_takes_oldest_job_witness :
  let s := exec (init [(0, 13)]) [Run 0 0; Run 0 0; CallReceive 0 10 0 0 1] in
  threads (exec s [Run 0 10; Run 0 10]) !! 0
  = Some (mkThread (Processing (mkJob 0 10 0 1 0)) false).
Proof.
  intros s.
  destruct (waiting_consumer_takes_oldest_job [(0, 13)]
              [Run 0 0; Run 0 0; CallReceive 0 10 0 0 1] 0 false
              (mkJob 0 10 0 1 0) [] 10 10 eq_refl eq_refl)
    as (_ & _ & H & _).
  exact H.
Defined.

(** ** After a consumer has crashed *)

Lemma vstep_crashed n i v v' e b :
  vstep n i v v' ->
  v_thread v = Some (mkThread (Crashed e) b) ->
  v_thread v' = v_thread v /\ v_events v' = v_events v
  /\ (forall w, v_cond v = Some (mkCondition true w) -> v' = v).
Proof.
  intros Hstep Hth.
  destruct Hstep; cbn [v_thread v_events v_cond] in *; try discriminate; auto.
  repeat split; auto. intros w [= ->]. discriminate.
Qed.

(** X4. A consumer that has ended with an exception stays ended under
    every schedule: its thread state and the events it has made never change
    again, so the jobs received for its nozzle afterwards are never taken. *)
Theorem crashed_consumer_stays_dead
    (s : State) (n : Z) (e : exn) (b : bool) (sched : list input) :
  threads s !! n = Some (mkThread (Crashed e) b) ->
  threads (exec s sched) !! n = Some (mkThread (Crashed e) b)
  /\ consumer_events n (trace (exec s sched)) = consumer_events n (trace s).
Proof.
  intros Hth.
  apply (exec_ind (fun _ => True)
           (fun s' => threads s' !! n = Some (mkThread (Crashed e) b)
                      /\ consumer_events n (trace s')
                         = consumer_events n (trace s))).
  - auto.
  - intros s' i _ [Ht He].
    destruct (vstep_crashed n i _ _ e b (step_vstep n s' i) Ht) as (H1 & H2 & _).
    cbn [view v_thread v_events] in H1, H2. rewrite H1, H2. auto.
  - apply Forall_forall. auto.
Qed.

Lemma crashed_consumer_stays_dead_witness :
  let s := exec (init [(0, 13)])
             [Run 0 0; Run 0 0; CallRemove 0; CallReceive 0 10 0 0 1;
              Run 0 10; Run 0 10; Run 0 10] in
  threads (exec s [CallReceive 0 11 0 0 1; Run 0 12; Run 0 12]) !! 0
  = Some (mkThread (Crashed KeyError) false).
Proof.
  intros s.
  exact (proj1 (crashed_consumer_stays_dead s 0 KeyError false
                  [CallReceive 0 11 0 0 1; Run 0 12; Run 0 12] eq_refl)).
Defined.

(** X5. In a state a schedule leads to, a consumer that finds its queue
    empty while its nozzle has no entry in the relay dict ends with
    [KeyError] at [relay_off] with the lock of the condition still held.
    From then on, under every schedule, [receive] for that nozzle waits for
    the lock and changes nothing, and the queue stays empty. *)
Theorem crash_at_relay_off_blocks_receive
    (items : list (Z * Z)) (sched : list input) (n : Z) (b : bool) (now : Q)
    (later : list input) (ts : Q) (loc : Z) (dl du : Q) :
  let s := exec (init items) sched in
  threads s !! n = Some (mkThread AtQueueTest b) ->
  nozzleQueueDict s !! n = Some [] ->
  relay_of n s = None ->
  let s1 := step s (Run n now) in
  let s2 := exec s1 later in
  threads s1 !! n = Some (mkThread (Crashed KeyError) b)
  /\ trace s1 = trace s
  /\ receive n ts loc dl du MainThread s2 = (Blocks, s2)
  /\ nozzleQueueDict s2 !! n = Some []
  /\ threads s2 !! n = Some (mkThread (Crashed KeyError) b).
Proof.
  intros s Hth Hq Hr s1 s2.
  pose proof (sync_ok_exec n items sched) as Hs.
  fold s in Hs. unfold sync_ok in Hs. cbn [view v_thread v_cond] in Hs.
  rewrite Hth in Hs. cbn [at_pc] in Hs.
  assert (E1 : s1 = set_thread n (mkThread (Crashed KeyError) b) s).
  { unfold s1. cbn [step]. unfold consumer_step.
    rewrite Hth, Hq. cbn [at_pc nozzleOn default].
    rewrite relay_off_unmapped by exact Hr. reflexivity. }
  assert (Hv : view n s2 = view n s1).
  { unfold s2.
    apply (exec_ind (fun _ => True) (fun s' => view n s' = view n s1));
      [reflexivity | | apply Forall_forall; auto].
    intros s' i _ E.
    pose proof (step_vstep n s' i) as Hstep. rewrite E in Hstep.
    destruct (vstep_crashed n i _ _ KeyError b Hstep) as (_ & _ & H).
    { rewrite E1. cbn. apply lookup_insert_eq. }
    apply (H NoWaiter). rewrite E1. cbn. exact Hs. }
  assert (Hth1 : threads s1 !! n = Some (mkThread (Crashed KeyError) b))
    by (rewrite E1; cbn; apply lookup_insert_eq).
  split; [exact Hth1|]. split; [rewrite E1; reflexivity|].
  pose proof (f_equal v_queue Hv) as Hq2.
  pose proof (f_equal v_cond Hv) as Hc2.
  pose proof (f_equal v_thread Hv) as Ht2.
  cbn [view v_queue v_cond v_thread] in Hq2, Hc2, Ht2.
  rewrite E1 in Hq2, Hc2.
  cbn [set_thread nozzleQueueDict nozzleconditionDict] in Hq2, Hc2.
  rewrite Hq in Hq2. rewrite Hs in Hc2.
  split; [rewrite receive_eq, Hq2, Hc2; reflexivity|].
  split; [exact Hq2|]. rewrite Ht2. exact Hth1.
Qed.

Lemma crash_at_relay_off_blocks_receive_witness :
  let s1 := exec (init [(1, 13)]) [Run 0 0; Run 0 0] in
  threads s1 !! 0 = Some (mkThread (Crashed KeyError) false)
  /\ receive 0 10 0 0 1 MainThread s1 = (Blocks, s1).
Proof.
  intros s1.
  destruct (crash_at_relay_off_blocks_receive [(1, 13)] [Run 0 0] 0 false 0
              [] 10 0 0 1 eq_refl eq_refl eq_refl)
    as (H1 & _ & H2 & _).
  split; [exact H1 | exact H2].
Defined.

(** ** Switching relays *)

Lemma dict_get_set k v n d :
  dict_get n (dict_set k v d) = if Z.eqb n k then Some v else dict_get n d.
Proof.
  induction d as [|[k' v'] d IH]; cbn [dict_set dict_get].
  - reflexivity.
  - destruct (Z.eqb_spec k k') as [<-|Hk]; cbn [dict_get].
    + destruct (Z.eqb n k); reflexivity.
    + rewrite IH. destruct (Z.eqb_spec n k') as [->|]; [|reflexivity].
      destruct (Z.eqb_spec k' k); [congruence | reflexivity].
Qed.

Lemma dict_keys_set k v d :
  is_Some (dict_get k d) -> dict_keys (dict_set k v d) = dict_keys d.
Proof.
  induction d as [|[k' v'] d IH]; cbn [dict_set dict_get dict_keys map fst].
  - intros [? [=]].
  - destruct (Z.eqb k k'); cbn [map fst]; [reflexivity|].
    intros H. f_equal. apply IH, H.
Qed.

Lemma dict_get_keys k d : is_Some (dict_get k d) <-> k ∈ dict_keys d.
Proof.
  induction d as [|[k' v'] d IH]; cbn [dict_get dict_keys map fst].
  - split; [intros [? [=]] | intros H; inversion H].
  - destruct (Z.eqb_spec k k') as [->|Hne].
    + split; [intros _; left | eauto].
    + rewrite IH. split; [intros H; right; exact H|].
      intros H. inversion H; subst; [congruence | assumption].
Qed.

(** The state after [relay.on()] ([b] true) or [relay.off()] on [n]. *)
Lemma relay_switch (b : bool) n r t s :
  relay_of n s = Some r ->
  (if b then relay_on n t s else relay_off n t s)
  = (Ok tt,
     add_events [(t, if b then RelayOn n else RelayOff n)]
       (set_heap (<[solenoidDict s :=
                    dict_set n (driven b r) (deref (solenoidDict s) s)]>
                  (heap s)) s)).
Proof.
  intros H. destruct b.
  - rewrite (relay_on_mapped _ r) by exact H. reflexivity.
  - rewrite (relay_off_mapped _ r) by exact H. reflexivity.
Qed.

Lemma relay_of_set n k v s :
  is_Some (relay_of n s) ->
  relay_of k (set_heap (<[solenoidDict s :=
                          dict_set n v (deref (solenoidDict s) s)]>
                        (heap s)) s)
  = if Z.eqb k n then Some v else relay_of k s.
Proof.
  intros [r Hr]. unfold relay_of in *.
  cbn [solenoidDict set_heap]. rewrite deref_set_heap_same.
  - apply dict_get_set.
  - rewrite (deref_some _ _ n) by congruence. eauto.
Qed.

Lemma relay_of_frame k s s' :
  heap s' = heap s -> solenoidDict s' = solenoidDict s ->
  relay_of k s' = relay_of k s.
Proof. unfold relay_of, deref. intros -> ->. reflexivity. Qed.

Lemma relay_switch_effect
    (b : bool) (n : Z) (t : tid) (s : State) :
  let r := if b then relay_on n t s else relay_off n t s in
  match relay_of n s with
  | None => r = (Raise KeyError, s)
  | Some relay =>
      r.1 = Ok tt
      /\ trace r.2 = trace s ++ [(t, if b then RelayOn n else RelayOff n)]
      /\ (forall k, relay_of k r.2
                    = if Z.eqb k n then Some (mkRelay (relayNumber relay) b)
                      else relay_of k s)
      /\ dict_keys (deref (solenoidDict r.2) r.2)
         = dict_keys (deref (solenoidDict s) s)
      /\ solenoidDict r.2 = solenoidDict s
      /\ nozzleQueueDict r.2 = nozzleQueueDict s
      /\ threads r.2 = threads s
  end.
Proof.
  intros r. subst r.
  destruct (relay_of n s) as [relay|] eqn:Hr.
  - rewrite (relay_switch b n relay) by exact Hr. cbn [fst snd].
    split; [reflexivity|]. split; [reflexivity|]. split.
    { intros k.
      transitivity (relay_of k (set_heap
        (<[solenoidDict s := dict_set n (driven b relay)
                                (deref (solenoidDict s) s)]> (heap s)) s));
        [reflexivity|].
      apply relay_of_set. rewrite Hr. eauto. }
    split; [|auto].
    change (dict_keys (deref (solenoidDict s) (set_heap
        (<[solenoidDict s := dict_set n (driven b relay)
                                (deref (solenoidDict s) s)]> (heap s)) s))
            = dict_keys (deref (solenoidDict s) s)).
    rewrite deref_set_heap_same.
    + apply dict_keys_set. unfold relay_of in Hr. rewrite Hr. eauto.
    + unfold relay_of in Hr. rewrite (deref_some _ _ n) by congruence. eauto.
  - destruct b.
    + apply relay_on_unmapped, Hr.
    + apply relay_off_unmapped, Hr.
Qed.

(** X6. [relay_on(n)] and [relay_off(n)] raise [KeyError], with nothing
    changed, exactly when [n] has no entry in the relay dict.  Otherwise they
    return, make the one call on the relay of [n], which keeps its pin and
    is driven or not accordingly, and leave every other entry, the order of
    the keys, the queues and the threads as they were. *)
Theorem relay_call_touches_one_relay
    (b : bool) (n : Z) (t : tid) (s : State) :
  let r := if b then relay_on n t s else relay_off n t s in
  match relay_of n s with
  | None => r = (Raise KeyError, s)
  | Some relay =>
      r.1 = Ok tt
      /\ trace r.2 = trace s ++ [(t, if b then RelayOn n else RelayOff n)]
      /\ (forall k, relay_of k r.2
                    = if Z.eqb k n then Some (mkRelay (relayNumber relay) b)
                      else relay_of k s)
      /\ dict_keys (deref (solenoidDict r.2) r.2)
         = dict_keys (deref (solenoidDict s) s)
      /\ solenoidDict r.2 = solenoidDict s
      /\ nozzleQueueDict r.2 = nozzleQueueDict s
      /\ threads r.2 = threads s
  end.
Proof. exact (relay_switch_effect b n t s). Qed.

Lemma for_each_switch (b : bool) (l : list Z) : forall t s,
  (forall k, k ∈ l -> is_Some (relay_of k s)) ->
  let r := for_each l (if b then relay_on else relay_off) t s in
  r.1 = Ok tt
  /\ trace r.2
     = trace s ++ map (fun k => (t, if b then RelayOn k else RelayOff k)) l
  /\ (forall k, relay_of k r.2
                = if decide (k ∈ l) then driven b <$> relay_of k s
                  else relay_of k s)
  /\ dict_keys (deref (solenoidDict r.2) r.2)
     = dict_keys (deref (solenoidDict s) s)
  /\ solenoidDict r.2 = solenoidDict s.
Proof.
  induction l as [|x l IH]; intros t s Hl r; subst r.
  - cbn. rewrite app_nil_r. repeat split; auto.
  - cbn [for_each]. unfold bind.
    destruct (Hl x) as [rx Hx]; [left|].
    pose proof (relay_switch_effect b x t s) as Hone.
    cbn zeta in Hone. rewrite Hx in Hone.
    replace ((if b then relay_on else relay_off) x t s)
      with (if b then relay_on x t s else relay_off x t s)
      by (destruct b; reflexivity).
    destruct (if b then relay_on x t s else relay_off x t s) as [o s1].
    cbn [fst snd] in Hone. destruct Hone as (-> & Htr & Hrel & Hkeys & Hsol & _).
    cbv beta iota.
    assert (Hl1 : forall k, k ∈ l -> is_Some (relay_of k s1)).
    { intros k Hk. rewrite Hrel. destruct (Z.eqb k x); [eauto|].
      apply Hl. right. exact Hk. }
    destruct (IH t s1 Hl1) as (H1 & H2 & H3 & H4 & H5).
    split; [exact H1|]. split.
    { rewrite H2, Htr, <- app_assoc. reflexivity. }
    split.
    { intros k. rewrite H3, Hrel.
      destruct (Z.eqb_spec k x) as [->|Hne].
      - rewrite Hx. cbn.
        destruct (decide (x ∈ l)), (decide (x ∈ x :: l)) as [|Hn];
          try reflexivity; exfalso; apply Hn; left.
      - destruct (decide (k ∈ l)) as [Hin|Hin],
                 (decide (k ∈ x :: l)) as [Hin'|Hin'];
          try reflexivity; exfalso.
        + apply Hin'. right. exact Hin.
        + inversion Hin'; subst; contradiction. }
    split; [rewrite H4; exact Hkeys | rewrite H5; exact Hsol].
Qed.

(** X7. [all_on()] and [all_off()] never raise: they go through the keys
    of the relay dict in order, make one call per key, in that order, and
    leave every relay of the dict driven, or every relay not driven, with
    its pin and the keys unchanged. *)
Theorem all_on_off_switch_every_relay (b : bool) (t : tid) (s : State) :
  let r := if b then all_on t s else all_off t s in
  r.1 = Ok tt
  /\ trace r.2
     = trace s ++ map (fun k => (t, if b then RelayOn k else RelayOff k))
                      (dict_keys (deref (solenoidDict s) s))
  /\ (forall k, relay_of k r.2 = driven b <$> relay_of k s)
  /\ dict_keys (deref (solenoidDict r.2) r.2)
     = dict_keys (deref (solenoidDict s) s).
Proof.
  intros r.
  assert (E : r = for_each (dict_keys (deref (solenoidDict s) s))
                    (if b then relay_on else relay_off) t s).
  { subst r. destruct b; reflexivity. }
  rewrite E.
  destruct (for_each_switch b (dict_keys (deref (solenoidDict s) s)) t s)
    as (H1 & H2 & H3 & H4 & _).
  { intros k Hk. apply dict_get_keys, Hk. }
  repeat split; auto.
  intros k. rewrite H3. destruct (decide _) as [|Hn]; [reflexivity|].
  destruct (relay_of k s) eqn:Hk; [|reflexivity].
  exfalso. apply Hn, dict_get_keys. unfold relay_of in Hk. rewrite Hk. eauto.
Qed.

(** ** A solenoid without an entry *)

Lemma relay_calls_app a b : relay_calls (a ++ b) = relay_calls a ++ relay_calls b.
Proof. apply List.filter_app. Qed.

Lemma unmapped_relay_call (b : bool) n k t s :
  relay_of n s = None ->
  relay_of n (if b then relay_on k t s else relay_off k t s).2 = None.
Proof.
  intros Hn. pose proof (relay_switch_effect b k t s) as H. cbn zeta in H.
  destruct (relay_of k s) as [r|] eqn:Hk.
  - destruct H as (_ & _ & H & _). rewrite H.
    destruct (Z.eqb_spec n k) as [->|]; [congruence | exact Hn].
  - rewrite H. exact Hn.
Qed.

Lemma unmapped_for_each (b : bool) n l : forall t s,
  relay_of n s = None ->
  relay_of n (for_each l (if b then relay_on else relay_off) t s).2 = None.
Proof.
  induction l as [|x l IH]; intros t s Hn; [exact Hn|].
  cbn [for_each]. unfold bind.
  pose proof (unmapped_relay_call b n x t s Hn) as Hx.
  replace ((if b then relay_on else relay_off) x t s)
    with (if b then relay_on x t s else relay_off x t s)
    by (destruct b; reflexivity).
  destruct (if b then relay_on x t s else relay_off x t s) as [[u|e|] s1];
    cbn [snd] in *; auto.
Qed.

Lemma unmapped_step n s i : relay_of n s = None -> relay_of n (step s i) = None.
Proof.
  intros Hn. destruct i; cbn [step].
  - rewrite receive_eq.
    destruct (nozzleQueueDict s !! nozzle) as [q|]; [|exact Hn].
    destruct (nozzleconditionDict s !! nozzle) as [c|]; [|exact Hn].
    destruct (locked c); exact Hn.
  - exact (unmapped_for_each true n _ MainThread s Hn).
  - exact (unmapped_for_each false n _ MainThread s Hn).
  - unfold relay_of.
    change (solenoidDict (remove solenoidNumber MainThread s).2)
      with (solenoidDict s).
    rewrite deref_remove, dict_get_pop.
    destruct (Z.eqb n solenoidNumber); [reflexivity | exact Hn].
  - unfold relay_of. rewrite clear_leaves_empty. reflexivity.
  - rewrite stop_is_clear. unfold relay_of. rewrite clear_leaves_empty.
    reflexivity.
  - exact Hn.
  - unfold consumer_step.
    destruct (threads s !! nozzle) as [[p b]|]; [|exact Hn].
    cbn [at_pc nozzleOn]. destruct p; try exact Hn.
    + cbn [set_running nozzleconditionDict nozzleQueueDict].
      destruct (nozzleconditionDict s !! nozzle) as [c|];
        [destruct (nozzleQueueDict s !! nozzle) as [q|]|]; exact Hn.
    + destruct (default [] (nozzleQueueDict s !! nozzle)) as [|j rest];
        [|exact Hn].
      pose proof (unmapped_relay_call false n nozzle (Consumer nozzle) s Hn) as H.
      cbv iota in H.
      destruct (relay_off nozzle (Consumer nozzle) s) as [[u|e|] s1];
        exact H.
    + destruct b; [rewrite process_on; exact Hn|].
      destruct (relay_of nozzle s) as [relay|] eqn:Hr.
      * rewrite (process_off_mapped _ _ _ relay) by exact Hr.
        pose proof (unmapped_relay_call true n nozzle (Consumer nozzle) s Hn) as H.
        cbv iota in H. rewrite (relay_on_mapped _ relay) in H by exact Hr.
        exact H.
      * rewrite process_off_unmapped by exact Hr. exact Hn.
    + destruct (nozzleconditionDict s !! nozzle) as [[[] []]|]; try exact Hn.
      destruct (running s); exact Hn.
  - exact Hn.
Qed.

Lemma vstep_events_elsewhere n i v v' :
  (forall now, i <> Run n now) -> vstep n i v v' -> v_events v' = v_events v.
Proof.
  intros Hi Hstep. destruct Hstep; try reflexivity;
    exfalso; eapply Hi; reflexivity.
Qed.

Ltac own_events n :=
  cbn [trace set_thread set_condition set_queue set_running add_events
       set_heap energize deenergize];
  rewrite ?consumer_events_app, ?relay_calls_app; cbn;
  rewrite ?Z.eqb_refl; cbn; rewrite ?app_nil_r; try reflexivity.

Lemma unmapped_quiet n s i :
  relay_of n s = None ->
  relay_calls (consumer_events n (trace (step s i)))
  = relay_calls (consumer_events n (trace s)).
Proof.
  intros Hn.
  assert (Helse : (forall now, i <> Run n now) ->
            consumer_events n (trace (step s i)) = consumer_events n (trace s)).
  { intros Hi. exact (vstep_events_elsewhere n i _ _ Hi (step_vstep n s i)). }
  destruct i; try (rewrite Helse by discriminate; reflexivity).
  destruct (decide (nozzle = n)) as [->|Hne];
    [|rewrite Helse by congruence; reflexivity].
  clear Helse. cbn [step]. unfold consumer_step.
  destruct (threads s !! n) as [[p b]|]; [|reflexivity].
  cbn [at_pc nozzleOn]. destruct p; try reflexivity.
  - cbn [set_running nozzleconditionDict nozzleQueueDict].
    destruct (nozzleconditionDict s !! n) as [c|];
      [destruct (nozzleQueueDict s !! n) as [q|]|]; reflexivity.
  - destruct (default [] (nozzleQueueDict s !! n)) as [|j rest].
    + rewrite relay_off_unmapped by exact Hn. reflexivity.
    + own_events n.
  - destruct b.
    + rewrite process_on. own_events n.
    + rewrite process_off_unmapped by exact Hn. own_events n.
  - destruct (nozzleconditionDict s !! n) as [[[] []]|]; try reflexivity.
    destruct (running s); reflexivity.
Qed.

(** X8. A solenoid that has no entry in the relay dict never gets one
    back: whatever is called afterwards, it stays without entry, and the
    consumer of that nozzle makes no further relay call.  So after
    [remove(n)], [clear()] or [stop()] nozzle [n] is never switched again by
    its consumer. *)
Theorem unmapped_nozzle_is_never_switched
    (s : State) (n : Z) (sched : list input) :
  relay_of n s = None ->
  relay_of n (exec s sched) = None
  /\ relay_calls (consumer_events n (trace (exec s sched)))
     = relay_calls (consumer_events n (trace s)).
Proof.
  intros Hn.
  apply (exec_ind (fun _ => True)
           (fun s' => relay_of n s' = None
                      /\ relay_calls (consumer_events n (trace s'))
                         = relay_calls (consumer_events n (trace s)))).
  - auto.
  - intros s' i _ [H1 H2]. split; [apply unmapped_step, H1|].
    rewrite unmapped_quiet by exact H1. exact H2.
  - apply Forall_forall. auto.
Qed.

Lemma unmapped_nozzle_is_never_switched_witness :
  let s := exec (init [(0, 13)]) [Run 0 0; Run 0 0; CallRemove 0] in
  relay_calls (consumer_events 0 (trace
    (exec s [CallReceive 0 10 0 0 1; Run 0 10; Run 0 10; Run 0 10; CallAllOn])))
  = [RelayOff 0].
Proof.
  intros s.
  exact (proj2 (unmapped_nozzle_is_never_switched s 0
                  [CallReceive 0 10 0 0 1; Run 0 10; Run 0 10; Run 0 10;
                   CallAllOn] eq_refl)).
Defined.

(** ** What a consumer logs *)

Lemma count_app f a b : count f (a ++ b) = (count f a + count f b)%nat.
Proof. induction a as [|e a IH]; simpl; [reflexivity|]. rewrite IH. lia. Qed.

Lemma slept_nonneg d : Qle_bool 0 (slept d) = true.
Proof. unfold slept. destruct (Qle_bool 0 d) eqn:E; [exact E | reflexivity]. Qed.

Lemma log_ok_step n i v v' : vstep n i v v' -> log_ok v -> log_ok v'.
Proof.
  intros Hstep [Hev Hc].
  destruct Hstep; unfold log_ok in *;
    cbn [v_thread v_events at_pc] in *;
    rewrite ?forallb_app, ?count_app, ?Hev;
    cbn [forallb wait_ok count is_log is_pop andb];
    rewrite ?onDur_nonneg, ?slept_nonneg;
    try (split; [reflexivity | lia]); auto.
  - split; [reflexivity|]. destruct H as [-> | ->]; exact Hc.
Qed.

Lemma log_ok_exec n items sched : log_ok (view n (exec (init items) sched)).
Proof.
  apply (exec_ind (fun _ => True)).
  - rewrite view_init. destruct (decide _); split; reflexivity.
  - intros s i _. apply log_ok_step with (n := n) (i := i), step_vstep.
  - apply Forall_forall. auto.
Qed.

(** X9. Under every schedule, every wait a consumer has made is of a
    length that is not negative, and it has logged one line per job it has
    taken: exactly so whenever it is between two jobs, and one short at most
    while a job is in hand or after it has ended with an exception. *)
Theorem consumer_logs_one_line_per_job
    (items : list (Z * Z)) (sched : list input) (n : Z) :
  let s := exec (init items) sched in
  let evs := consumer_events n (trace s) in
  forallb wait_ok evs = true
  /\ (count is_log evs <= count is_pop evs <= S (count is_log evs))%nat
  /\ (forall th, threads s !! n = Some th ->
                 between_jobs (at_pc th) = true ->
                 count is_log evs = count is_pop evs).
Proof.
  intros s evs.
  destruct (log_ok_exec n items sched) as [Hev Hc].
  fold s in Hev, Hc. cbn [view v_events v_thread] in Hev, Hc. fold evs in Hev, Hc.
  split; [exact Hev|]. split.
  - destruct (threads s !! n) as [[p b]|]; [destruct p|];
      cbn [at_pc] in Hc; lia.
  - intros th Hth Hb. rewrite Hth in Hc.
    destruct th as [p b]. destruct p; cbn in Hb, Hc; try discriminate; exact Hc.
Qed.

Lemma consumer_logs_one_line_per_job_witness :
  let s := exec (init [(0, 13)])
             [Run 0 0; Run 0 0; CallReceive 0 10 0 0 2; Run 0 11; Run 0 11;
              Run 0 11] in
  count is_log (consumer_events 0 (trace s)) = 1%nat.
Proof.
  intros s. unfold s.
  rewrite (proj2 (proj2 (consumer_logs_one_line_per_job [(0, 13)]
             [Run 0 0; Run 0 0; CallReceive 0 10 0 0 2; Run 0 11; Run 0 11;
              Run 0 11] 0)) (mkThread AtQueueTest true) eq_refl eq_refl).
  reflexivity.
Defined.

(** ** The relay against the consumer *)

Lemma vstep_other_run n m now v v' :
  m <> n -> vstep n (Run m now) v v' -> v' = v.
Proof.
  intros Hne Hstep. inversion Hstep; subst; try reflexivity; congruence.
Qed.

Lemma consumer_step_other_relay n m now s :
  m <> n -> relay_of n (consumer_step m now s) = relay_of n s.
Proof.
  intros Hne. apply Z.eqb_neq in Hne. rewrite Z.eqb_sym in Hne.
  unfold consumer_step.
  destruct (threads s !! m) as [[p b]|]; [|reflexivity].
  cbn [at_pc nozzleOn]. destruct p; try reflexivity.
  - cbn [set_running nozzleconditionDict nozzleQueueDict].
    destruct (nozzleconditionDict s !! m) as [c|];
      [destruct (nozzleQueueDict s !! m) as [q|]|]; reflexivity.
  - destruct (default [] (nozzleQueueDict s !! m)) as [|j rest];
      [|reflexivity].
    pose proof (relay_switch_effect false m (Consumer m) s) as H.
    cbn zeta in H. cbv iota in H.
    destruct (relay_of m s) as [r|].
    + destruct H as (Hok & _ & Hrel & _).
      destruct (relay_off m (Consumer m) s) as [o s1]. cbn [fst snd] in *.
      subst o. cbv iota.
      transitivity (relay_of n s1); [reflexivity|].
      rewrite Hrel, Hne. reflexivity.
    + rewrite H. reflexivity.
  - destruct b; [rewrite process_on; reflexivity|].
    destruct (relay_of m s) as [r|] eqn:Hr.
    + rewrite (process_off_mapped _ _ _ r) by exact Hr.
      transitivity (relay_of n (energize m r s)); [reflexivity|].
      unfold energize. rewrite relay_of_set by (rewrite Hr; eauto).
      rewrite Hne. reflexivity.
    + rewrite process_off_unmapped by exact Hr. reflexivity.
  - destruct (nozzleconditionDict s !! m) as [[[] []]|]; try reflexivity.
    destruct (running s); reflexivity.
Qed.

Lemma relay_follows_step n pin s i :
  worker_input i = true ->
  chan_inv n (view n s) ->
  relay_of n s = Some (mkRelay pin (nozzle_on_flag (threads s !! n))) ->
  is_crashed <$> (at_pc <$> threads s !! n) <> Some true ->
  relay_of n (step s i)
  = Some (mkRelay pin (nozzle_on_flag (threads (step s i) !! n)))
  /\ is_crashed <$> (at_pc <$> threads (step s i) !! n) <> Some true.
Proof.
  intros Hi [Hk Ht _ _ Hp _ _] Hr Hcr.
  destruct i; try discriminate; cbn [step].
  - (* receive *)
    rewrite receive_eq.
    destruct (nozzleQueueDict s !! nozzle) as [q|]; [|auto].
    destruct (nozzleconditionDict s !! nozzle) as [c|]; [|auto].
    destruct (locked c); auto.
  - (* beep *) auto.
  - (* a consumer runs *)
    destruct (decide (nozzle = n)) as [->|Hne].
    2:{ rewrite consumer_step_other_relay by exact Hne.
        pose proof (vstep_other_run n nozzle now _ _ Hne
                      (consumer_step_vstep n nozzle now s)) as Hv.
        apply (f_equal v_thread) in Hv. cbn [view v_thread] in Hv.
        rewrite Hv. auto. }
    unfold consumer_step. unfold phase_ok in Hp.
    cbn [view v_thread v_queue v_cond] in Hk, Ht, Hp.
    destruct (threads s !! n) as [[p b]|] eqn:Hth; [|rewrite Hth; auto].
    cbn [at_pc nozzleOn nozzle_on_flag] in *.
    destruct Ht as [q Hq]; [eauto|].
    destruct Hk as [[c Hc] _]; [eauto|].
    destruct p.
    + cbn [set_running nozzleconditionDict nozzleQueueDict].
      rewrite Hc, Hq. cbn [threads set_thread set_condition set_running].
      rewrite (lookup_insert_eq (threads s)). cbn. split; [exact Hr | discriminate].
    + rewrite Hq. destruct q as [|j rest]; cbn [default id].
      * rewrite (relay_off_mapped _ _ _ _ Hr).
        cbn [threads set_thread set_condition add_events deenergize set_heap].
        rewrite (lookup_insert_eq (threads s)). cbn [nozzle_on_flag at_pc fmap option_fmap
          option_map is_crashed].
        split; [|discriminate].
        transitivity (relay_of n (deenergize n
          (mkRelay pin b) s)); [reflexivity|].
        unfold deenergize. rewrite relay_of_set by (rewrite Hr; eauto).
        rewrite Z.eqb_refl. reflexivity.
      * cbn [threads set_thread set_condition add_events set_queue].
        rewrite (lookup_insert_eq (threads s)). cbn. split; [exact Hr | discriminate].
    + destruct b.
      * rewrite process_on.
        cbn [threads set_thread set_condition add_events].
        rewrite (lookup_insert_eq (threads s)). cbn. split; [exact Hr | discriminate].
      * rewrite (process_off_mapped _ _ _ _ _ _ Hr).
        cbn [threads set_thread set_condition add_events energize set_heap].
        rewrite (lookup_insert_eq (threads s)). cbn [nozzle_on_flag at_pc nozzleOn fmap
          option_fmap option_map is_crashed].
        split; [|discriminate].
        transitivity (relay_of n (energize n (mkRelay pin false) s));
          [reflexivity|].
        unfold energize. rewrite relay_of_set by (rewrite Hr; eauto).
        rewrite Z.eqb_refl. reflexivity.
    + destruct Hp as (_ & -> & _). rewrite Hc.
      destruct c as [[] []]; try (rewrite Hth; cbn; auto; fail).
      destruct (running s);
        cbn [threads set_thread set_condition];
        rewrite (lookup_insert_eq (threads s)); cbn; split; auto; discriminate.
    + exfalso. apply Hcr. reflexivity.
    + rewrite Hth. cbn. auto.
  - (* the end of the constructor *) auto.
Qed.

Lemma relay_of_setup_nozzles k n s :
  relay_of n (setup_nozzles k s) = relay_of n s.
Proof. induction k as [|k IH]; [reflexivity|]. exact IH. Qed.

Lemma relay_of_init n items :
  relay_of n (init items) = dict_get n (init_relays items).
Proof. unfold init. rewrite relay_of_setup_nozzles. reflexivity. Qed.

Lemma init_relays_inactive n items r :
  dict_get n (init_relays items) = Some r -> is_active r = false.
Proof.
  induction items as [|[k pin] items IH]; cbn; [discriminate|].
  destruct (Z.eqb n k); [intros [= <-]; reflexivity | exact IH].
Qed.

(** X10. As long as nothing but [receive], [beep], the end of the
    constructor and the consumers run, the relay of a nozzle that had an
    entry when the controller was built keeps its pin and, unless its
    consumer has ended with an exception, is driven exactly when the
    [nozzleOn] of that consumer is true (the consumer being at its queue test
    or processing a job): it is not driven before the consumer has run, nor
    while the consumer is inside [wait()]. *)
Theorem relay_is_on_exactly_while_nozzleOn
    (items : list (Z * Z)) (sched : list input) (n : Z) (relay : Relay) :
  relay_of n (init items) = Some relay ->
  Forall (fun i => worker_input i = true) sched ->
  let s := exec (init items) sched in
  is_crashed <$> (at_pc <$> threads s !! n) <> Some true ->
  relay_of n s
  = Some (mkRelay (relayNumber relay) (nozzle_on_flag (threads s !! n))).
Proof.
  intros Hrelay Hsched s _. subst s.
  assert (Hinit : nozzle_on_flag (threads (init items) !! n) = false).
  { pose proof (f_equal v_thread (view_init n items)) as Hv.
    cbn [view v_thread] in Hv. rewrite Hv.
    destruct (decide _); reflexivity. }
  assert (Hoff : is_active relay = false).
  { rewrite relay_of_init in Hrelay.
    exact (init_relays_inactive _ _ _ Hrelay). }
  apply (proj1 (proj2 (exec_ind (fun i => worker_input i = true)
    (fun s => chan_inv n (view n s)
              /\ (relay_of n s
                  = Some (mkRelay (relayNumber relay)
                                  (nozzle_on_flag (threads s !! n)))
                  /\ is_crashed <$> (at_pc <$> threads s !! n) <> Some true))
    (init items)
    ltac:(split; [apply chan_inv_init|]; split;
          [rewrite Hrelay, Hinit, <- Hoff; destruct relay; reflexivity
          |pose proof (f_equal v_thread (view_init n items)) as Hv;
           cbn [view v_thread] in Hv; rewrite Hv;
           destruct (decide _); cbn; discriminate])
    ltac:(intros s i Hi (Hinv & Hr & Hcr); split;
          [exact (chan_inv_step n i _ _ (step_vstep n s i) Hinv)
          |exact (relay_follows_step n _ s i Hi Hinv Hr Hcr)])
    sched Hsched))).
Qed.

Lemma relay_is_on_exactly_while_nozzleOn_witness :
  let s := exec (init [(0, 13)])
             [Run 0 0; Run 0 0; CallReceive 0 10 0 0 2; Run 0 11; Run 0 11;
              Run 0 11] in
  relay_of 0 s = Some (mkRelay 13 true).
Proof.
  intros s.
  exact (relay_is_on_exactly_while_nozzleOn [(0, 13)]
           [Run 0 0; Run 0 0; CallReceive 0 10 0 0 2; Run 0 11; Run 0 11;
            Run 0 11] 0 (mkRelay 13 false) eq_refl
           ltac:(repeat constructor) ltac:(vm_compute; discriminate)).
Defined.

(** ** One nozzle against the others *)

Lemma vstep_other_receive n m ts loc dl du v v' :
  m <> n -> vstep n (CallReceive m ts loc dl du) v v' -> v' = v.
Proof.
  intros Hne Hstep. inversion Hstep; subst; try reflexivity; congruence.
Qed.

(** X11. A [receive] for another nozzle, or a step of the consumer of
    another nozzle, leaves a nozzle as it is: its thread, its queue, its
    condition, what its consumer has done, the jobs appended for it, and its
    entry in the relay dict. *)
Theorem other_nozzles_are_untouched
    (s : State) (n m : Z) (i : input) :
  m <> n ->
  (exists ts loc dl du, i = CallReceive m ts loc dl du)
  \/ (exists now, i = Run m now) ->
  let s' := step s i in
  threads s' !! n = threads s !! n
  /\ nozzleQueueDict s' !! n = nozzleQueueDict s !! n
  /\ nozzleconditionDict s' !! n = nozzleconditionDict s !! n
  /\ consumer_events n (trace s') = consumer_events n (trace s)
  /\ appended n (trace s') = appended n (trace s)
  /\ relay_of n s' = relay_of n s.
Proof.
  intros Hne Hi s'. subst s'.
  assert (Hv : view n (step s i) = view n s).
  { pose proof (step_vstep n s i) as Hstep.
    destruct Hi as [(ts & loc & dl & du & ->) | (now & ->)].
    - exact (vstep_other_receive _ _ _ _ _ _ _ _ Hne Hstep).
    - exact (vstep_other_run _ _ _ _ _ Hne Hstep). }
  split; [exact (f_equal v_thread Hv)|].
  split; [exact (f_equal v_queue Hv)|].
  split; [exact (f_equal v_cond Hv)|].
  split; [exact (f_equal v_events Hv)|].
  split; [exact (f_equal v_appended Hv)|].
  destruct Hi as [(ts & loc & dl & du & ->) | (now & ->)]; cbn [step].
  - rewrite receive_eq.
    destruct (nozzleQueueDict s !! m) as [q|]; [|reflexivity].
    destruct (nozzleconditionDict s !! m) as [c|]; [|reflexivity].
    destruct (locked c); reflexivity.
  - apply consumer_step_other_relay, Hne.
Qed.

Lemma other_nozzles_are_untouched_witness :
  let s := exec (init [(0, 13); (1, 15)]) [Run 0 0; Run 0 0] in
  nozzleQueueDict (step s (CallReceive 1 10 0 0 1)) !! 0 = Some [].
Proof.
  intros s.
  destruct (other_nozzles_are_untouched s 0 1 (CallReceive 1 10 0 0 1))
    as (_ & H & _).
  - discriminate.
  - left. exists 10%Q, 0, 0%Q, 1%Q. reflexivity.
  - exact H.
Defined.

(** ** What the constructor builds *)




(** * The queue against a bounded FIFO *)

(** ** What a step adds to the trace *)








(** ** The code's queue is the specification's *)

Lemma deque_append_explicit q j :
  deque_append q j
  = if (length q <? 5)%nat then q ++ [j] else drop 1 q ++ [j].
Proof.
  unfold deque_append, maxlen. rewrite length_app. cbn [length].
  destruct (length q <? 5)%nat eqn:E.
  - apply Nat.ltb_lt in E.
    destruct (5 <? length q + 1)%nat eqn:E'; [|reflexivity].
    apply Nat.ltb_lt in E'. lia.
  - apply Nat.ltb_ge in E.
    destruct (5 <? length q + 1)%nat eqn:E'.
    + destruct q; [cbn in E; lia | reflexivity].
    + apply Nat.ltb_ge in E'. lia.
Qed.







(** ** First in, first out *)




(** ** Who holds the lock when [receive] has to wait *)

Lemma has_thread n items sched :
  let s := exec (init items) sched in
  is_Some (nozzleQueueDict s !! n) -> is_Some (threads s !! n).
Proof.
  apply (exec_ind (fun _ => True)
           (fun s => is_Some (nozzleQueueDict s !! n)
                     -> is_Some (threads s !! n))).
  - pose proof (view_init n items) as H.
    destruct (decide _); apply (f_equal v_queue) in H as Hq;
      apply (f_equal v_thread) in H as Ht;
      cbn [view v_queue v_thread] in Hq, Ht; rewrite Hq, Ht; eauto.
    intros [? [=]].
  - intros s i _ IH. pose proof (step_vstep n s i) as Hstep.
    change (is_Some (v_queue (view n (step s i)))
            -> is_Some (v_thread (view n (step s i)))).
    change (is_Some (v_queue (view n s)) -> is_Some (v_thread (view n s)))
      in IH.
    destruct Hstep; cbn [v_queue v_thread] in *; eauto.
  - apply Forall_forall. auto.
Qed.

Lemma lock_holder n items sched th :
  let s := exec (init items) sched in
  threads s !! n = Some th ->
  locked <$> nozzleconditionDict s !! n = Some true ->
  at_pc th = AtQueueTest \/ is_crashed (at_pc th) = true.
Proof.
  intros s Hth Hl.
  pose proof (sync_ok_exec n items sched) as Hs.
  destruct (never_returns_exec items sched n th Hth) as [Hr _].
  fold s in Hs. unfold sync_ok in Hs. cbn [view v_thread v_cond] in Hs.
  rewrite Hth in Hs.
  destruct (at_pc th); auto; try congruence.
  - rewrite Hs in Hl. discriminate.
  - rewrite Hs in Hl. discriminate.
  - destruct Hs as [[Hs _]|[Hs _]]; rewrite Hs in Hl; discriminate.
Qed.

(** A consumer at its queue test lets go of the lock when it runs, unless
    it ends at [relay_off]. *)
Lemma queue_test_releases n b now s q ts loc dl du :
  threads s !! n = Some (mkThread AtQueueTest b) ->
  nozzleQueueDict s !! n = Some q ->
  q <> [] \/ is_Some (relay_of n s) ->
  (receive n ts loc dl du MainThread (step s (Run n now))).1 = Ok tt.
Proof.
  intros Hth Hq Hor. cbn [step]. unfold consumer_step.
  rewrite Hth, Hq. cbn [at_pc nozzleOn].
  destruct q as [|j rest]; cbn [default id].
  - destruct Hor as [Hne|[r Hr]]; [congruence|].
    rewrite (relay_off_mapped _ r) by exact Hr.
    rewrite receive_eq.
    cbn [set_thread set_condition add_events deenergize set_heap
         nozzleQueueDict nozzleconditionDict].
    rewrite Hq, lookup_insert_eq. reflexivity.
  - rewrite receive_eq.
    cbn [set_thread set_condition add_events set_queue
         nozzleQueueDict nozzleconditionDict].
    rewrite !lookup_insert_eq. reflexivity.
Qed.

(** A consumer that has ended with the lock held never lets go of it. *)
Lemma crashed_with_lock_frozen n s e b c later :
  threads s !! n = Some (mkThread (Crashed e) b) ->
  nozzleconditionDict s !! n = Some c ->
  locked c = true ->
  view n (exec s later) = view n s.
Proof.
  intros Hth Hc Hl.
  apply (exec_ind (fun _ => True) (fun s' => view n s' = view n s));
    [reflexivity | | apply Forall_forall; auto].
  intros s' i _ E.
  pose proof (step_vstep n s' i) as Hstep. rewrite E in Hstep.
  destruct (vstep_crashed n i _ _ e b Hstep) as (_ & _ & H).
  { cbn. exact Hth. }
  destruct c as [l w]. cbn in Hl. subst l.
  apply (H w). cbn. exact Hc.
Qed.

Lemma receive_blocked_for_ever n s e b later ts loc dl du ts' loc' dl' du' :
  threads s !! n = Some (mkThread (Crashed e) b) ->
  (receive n ts loc dl du MainThread s).1 = Blocks ->
  receive n ts' loc' dl' du' MainThread (exec s later)
  = (Blocks, exec s later).
Proof.
  intros Hth Hb. rewrite receive_eq in Hb.
  destruct (nozzleQueueDict s !! n) as [q|] eqn:Hq; [|discriminate].
  destruct (nozzleconditionDict s !! n) as [c|] eqn:Hc; [|discriminate].
  destruct (locked c) eqn:Hl; [|discriminate].
  pose proof (crashed_with_lock_frozen n s e b c later Hth Hc Hl) as Hv.
  pose proof (f_equal v_queue Hv) as Hq2.
  pose proof (f_equal v_cond Hv) as Hc2.
  cbn [view v_queue v_cond] in Hq2, Hc2.
  rewrite receive_eq, Hq2, Hc2, Hq, Hc, Hl. reflexivity.
Qed.

(** C8. In any state a schedule leads to, [receive] raises [KeyError]
    exactly when the nozzle has no queue, that is when it is not one of
    [range(0, len(nozzleDict))], and then nothing has changed.  For a nozzle
    with a queue the call, when the lock is free, returns normally, puts the
    one job at the end of that queue (after the jobs that were there, less
    the oldest when there were five) and touches no other queue, and writes
    one line to the log, which carries the five arguments.  When the lock is
    held the call waits and nothing has changed: the holder is the consumer
    of that nozzle, which is at its queue test or has ended with an
    exception.  A consumer at its queue test lets go of the lock when it
    runs (unless the queue is empty and the nozzle has no relay), and the
    call then returns; a consumer that has ended with the lock held never
    lets go of it, and then every later call for that nozzle waits for ever,
    so for such a nozzle the job is not appended and no line is written. *)
Theorem receive_fails_iff_not_configured
    (items : list (Z * Z)) (sched : list input)
    (nozzle : Z) (timeStamp : Q) (location : Z) (delay duration : Q) :
  let s := exec (init items) sched in
  let r := receive nozzle timeStamp location delay duration MainThread s in
  let job := mkJob nozzle timeStamp delay duration location in
  let audit := ReceiveLine (PInt nozzle) (PNum timeStamp) (PNum delay)
                           (PNum duration) (PInt location) in
  (r.1 = Raise KeyError <-> nozzleQueueDict s !! nozzle = None)
  /\ (nozzleQueueDict s !! nozzle = None
      <-> ~ (0 <= nozzle < Z.of_nat (length items)))
  /\ (r.1 = Raise KeyError -> r.2 = s)
  /\ (forall q, nozzleQueueDict s !! nozzle = Some q ->
        (r.1 = Blocks /\ r.2 = s
         /\ locked <$> nozzleconditionDict s !! nozzle = Some true
         /\ exists th, threads s !! nozzle = Some th
                       /\ (at_pc th = AtQueueTest
                           \/ is_crashed (at_pc th) = true))
        \/ (r.1 = Ok tt
            /\ locked <$> nozzleconditionDict s !! nozzle = Some false
            /\ nozzleQueueDict r.2
               = <[nozzle := if (length q <? 5)%nat then q ++ [job]
                             else drop 1 q ++ [job]]> (nozzleQueueDict s)
            /\ (length q <= 5)%nat
            /\ trace r.2 = trace s ++ [(MainThread, Append job);
                                       (MainThread, LogLine audit)]
            /\ log_of (trace r.2) = log_of (trace s) ++ [audit]
            /\ heap r.2 = heap s
            /\ threads r.2 = threads s))
  /\ (forall q b now,
        nozzleQueueDict s !! nozzle = Some q ->
        threads s !! nozzle = Some (mkThread AtQueueTest b) ->
        q <> [] \/ is_Some (relay_of nozzle s) ->
        r.1 = Blocks
        /\ (receive nozzle timeStamp location delay duration MainThread
              (step s (Run nozzle now))).1 = Ok tt)
  /\ (forall e b,
        threads s !! nozzle = Some (mkThread (Crashed e) b) ->
        r.1 = Blocks ->
        forall later ts loc dl du,
          receive nozzle ts loc dl du MainThread (exec s later)
          = (Blocks, exec s later))
  /\ line_args audit
     ≡ₚ [PInt nozzle; PNum timeStamp; PInt location; PNum delay; PNum duration].
Proof.
  intros s r job audit.
  pose proof (inv_keys _ _ (chan_inv_exec nozzle items sched)) as Hk.
  pose proof (inv_length _ _ (chan_inv_exec nozzle items sched)) as Hlen.
  pose proof (queue_keys nozzle items sched) as Hrange.
  pose proof (has_thread nozzle items sched) as Hhas.
  pose proof (fun th => lock_holder nozzle items sched th) as Hholder.
  pose proof (sync_ok_exec nozzle items sched) as Hsync.
  unfold queue_of, maxlen in Hlen. unfold sync_ok in Hsync.
  cbn [view v_queue v_cond v_thread] in Hk, Hlen, Hsync.
  cbv zeta in Hhas, Hholder. fold s in Hk, Hrange, Hlen, Hhas, Hholder, Hsync.
  assert (Hperm : line_args audit
     ≡ₚ [PInt nozzle; PNum timeStamp; PInt location; PNum delay; PNum duration]).
  { cbn. apply perm_skip, perm_skip.
    apply (Permutation_app_comm [PNum delay; PNum duration] [PInt location]). }
  assert (Hstuck : forall e b,
        threads s !! nozzle = Some (mkThread (Crashed e) b) ->
        r.1 = Blocks ->
        forall later ts loc dl du,
          receive nozzle ts loc dl du MainThread (exec s later)
          = (Blocks, exec s later)).
  { intros e b Hth Hb later ts loc dl du.
    exact (receive_blocked_for_ever nozzle s e b later _ _ _ _ ts loc dl du
             Hth Hb). }
  assert (Hprogress : forall q b now,
        nozzleQueueDict s !! nozzle = Some q ->
        threads s !! nozzle = Some (mkThread AtQueueTest b) ->
        q <> [] \/ is_Some (relay_of nozzle s) ->
        r.1 = Blocks
        /\ (receive nozzle timeStamp location delay duration MainThread
              (step s (Run nozzle now))).1 = Ok tt).
  { intros q b now Hq Hth Hor. split.
    - rewrite Hth in Hsync. cbn [at_pc] in Hsync.
      subst r. rewrite receive_eq, Hq, Hsync. reflexivity.
    - exact (queue_test_releases nozzle b now s q _ _ _ _ Hth Hq Hor). }
  subst r. revert Hstuck Hprogress. rewrite receive_eq.
  intros Hstuck Hprogress.
  destruct (nozzleQueueDict s !! nozzle) as [q|] eqn:Hq.
  - destruct (nozzleconditionDict s !! nozzle) as [c|] eqn:Hc.
    2:{ exfalso. destruct Hk as [Hk _]. destruct Hk as [? [=]]. eauto. }
    destruct (locked c) eqn:Hl; cbn [fst snd] in *.
    + split; [split; discriminate|].
      split; [split; [discriminate | intros Hn; exfalso; apply Hn, Hrange; eauto]|].
      split; [discriminate|]. split; [|auto].
      intros q' _. left. cbn. rewrite Hl.
      destruct Hhas as [th Hth]; [eauto|].
      repeat split; auto. exists th. split; [exact Hth|].
      apply Hholder; [exact Hth|]. cbn. rewrite Hl. reflexivity.
    + split; [split; discriminate|].
      split; [split; [discriminate | intros Hn; exfalso; apply Hn, Hrange; eauto]|].
      split; [discriminate|]. split; [|auto].
      intros q' [= <-]. right. cbn. rewrite Hl, <- app_assoc, log_of_app.
      rewrite deque_append_explicit. cbn in Hlen.
      repeat split; auto.
  - cbn [fst snd] in *.
    split; [split; auto|].
    split; [split; auto; intros _ Hn; apply Hrange in Hn; destruct Hn as [? [=]]|].
    split; [auto|]. split; [discriminate|]. auto.
Qed.

Lemma receive_fails_iff_not_configured_witness :
  let s := exec (init [(0, 13)])
             [Run 0 0; Run 0 0; FinishInit; CallReceive 0 10 0 0 2;
              Run 0 10; Run 0 10; Run 0 10; CallRemove 0; Run 0 12] in
  nozzleQueueDict s !! 0 = Some []
  /\ threads s !! 0 = Some (mkThread (Crashed KeyError) true)
  /\ forall later ts loc dl du,
       receive 0 ts loc dl du MainThread (exec s later)
       = (Blocks, exec s later).
Proof.
  intros s.
  destruct (receive_fails_iff_not_configured [(0, 13)]
              [Run 0 0; Run 0 0; FinishInit; CallReceive 0 10 0 0 2;
               Run 0 10; Run 0 10; Run 0 10; CallRemove 0; Run 0 12]
              0 13 0 0 1)
    as (_ & _ & _ & _ & _ & H & _).
  split; [reflexivity|]. split; [reflexivity|].
  exact (H KeyError true eq_refl eq_refl).
Defined.
